(** * Preprocessing transformers: Standardize, Bin, Shuffler, PolynomialFeatures

    A shallow embedding of [preprocessing.py].  NumPy arrays of rank 0, 1
    and 2 are an inductive type carrying their shape; Python exceptions are
    the [Raise] branch of a result type; mutable objects (arrays modified in
    place, labeled matrices, the process-wide random generator) live in an
    explicit state that the embedded functions thread. *)

From Stdlib Require Import QArith Qabs Qfield Qround.
From stdpp Require Import base tactics option list strings numbers sorting.

Open Scope Z_scope.
Open Scope list_scope.

(** ** Exceptions and results *)

Inductive exn : Type :=
| AssertionError
| Exception (msg : string)
| TypeError (msg : string)
| ValueError (msg : string)
| NotImplementedError (msg : string)
| IndexError
| UnboundLocalError
| AttributeError (msg : string).

Inductive result (A : Type) : Type :=
| Ok (a : A)
| Raise (e : exn).
Arguments Ok {A} a.
Arguments Raise {A} e.

Definition bind {A B} (m : result A) (k : A → result B) : result B :=
  match m with
  | Ok a => k a
  | Raise e => Raise e
  end.

Notation "'do' x <- m ; k" := (bind m (fun x => k))
  (at level 10, x name, m at level 100, k at level 200).
Notation "m ;; k" := (bind m (fun _ => k))
  (at level 100, k at level 200, right associativity).

(** [assert cond] *)
Definition assert_ (b : bool) : result unit :=
  if b then Ok tt else Raise AssertionError.

Definition is_ok {A} (r : result A) : bool :=
  match r with Ok _ => true | Raise _ => false end.

(** A loop body applied to every item in order, stopping at the first
    exception. *)
Fixpoint mapR {A B} (f : A → result B) (l : list A) : result (list B) :=
  match l with
  | [] => Ok []
  | x :: l' => do y <- f x; do ys <- mapR f l'; Ok (y :: ys)
  end.

(** ** Arrays *)

(** A NumPy array of rank at most two.  A rank-2 array carries its shape,
    so that shapes [(0, c)] and [(r, 0)] are told apart. *)
Inductive ndarray (A : Type) : Type :=
| Arr0 (x : A)
| Arr1 (v : list A)
| Arr2 (nrows ncols : nat) (rows : list (list A)).
Arguments Arr0 {A} x.
Arguments Arr1 {A} v.
Arguments Arr2 {A} nrows ncols rows.

Section Arrays.
  Context {A : Type}.

Definition ndim (a : ndarray A) : nat :=
    match a with Arr0 _ => 0 | Arr1 _ => 1 | Arr2 _ _ _ => 2 end.

Definition shape (a : ndarray A) : list nat :=
    match a with
    | Arr0 _ => []
    | Arr1 v => [length v]
    | Arr2 r c _ => [r; c]
    end.

Definition size (a : ndarray A) : nat :=
    match a with
    | Arr0 _ => 1
    | Arr1 v => length v
    | Arr2 r c _ => (r * c)%nat
    end.

  (** The rows of a rank-2 array agree with its shape. *)
Definition wf (a : ndarray A) : Prop :=
    match a with
    | Arr2 r c rows => length rows = r ∧ Forall (λ row, length row = c) rows
    | _ => True
    end.

  (** [a.ravel()] *)
Definition ravel (a : ndarray A) : list A :=
    match a with
    | Arr0 x => [x]
    | Arr1 v => v
    | Arr2 _ _ rows => concat rows
    end.

  (** The columns of [rows], each of which has [c] entries. *)
Definition transpose (c : nat) (rows : list (list A)) : list (list A) :=
    foldr (zip_with cons) (replicate c []) rows.

  (** [a.T] *)
Definition T (a : ndarray A) : ndarray A :=
    match a with
    | Arr2 r c rows => Arr2 c r (transpose c rows)
    | _ => a
    end.

  (** [for x in a]: iteration over the first axis; a rank-0 array is not
      iterable. *)
Definition iter (a : ndarray A) : result (list (ndarray A)) :=
    match a with
    | Arr0 _ => Raise (TypeError "iteration over a 0-d array")
    | Arr1 v => Ok (map Arr0 v)
    | Arr2 _ _ rows => Ok (map Arr1 rows)
    end.

  (** [np.vstack(arrs)] for a list of arrays of rank at most 1: rank-0 and
      rank-1 arrays are first promoted to a row, and the rows must have one
      length. *)
Definition as_row (a : ndarray A) : option (list A) :=
    match a with
    | Arr0 x => Some [x]
    | Arr1 v => Some v
    | Arr2 _ _ _ => None
    end.

End Arrays.

Definition eqb_shape (s1 s2 : list nat) : bool := bool_decide (s1 = s2).

Section ArrayOps.
  Context {A B C : Type}.

Definition nd_map (f : A → B) (a : ndarray A) : ndarray B :=
    match a with
    | Arr0 x => Arr0 (f x)
    | Arr1 v => Arr1 (map f v)
    | Arr2 r c rows => Arr2 r c (map (map f) rows)
    end.

  (** Elementwise combination of two arrays of one shape. *)
Definition nd_zip_with (f : A → B → C) (a : ndarray A) (b : ndarray B)
    : option (ndarray C) :=
    match a, b with
    | Arr0 x, Arr0 y => Some (Arr0 (f x y))
    | Arr1 v, Arr1 w =>
        if bool_decide (length v = length w) then Some (Arr1 (zip_with f v w))
        else None
    | Arr2 r c rows, Arr2 r' c' rows' =>
        if bool_decide (r = r' ∧ c = c')
        then Some (Arr2 r c (zip_with (zip_with f) rows rows'))
        else None
    | _, _ => None
    end.
End ArrayOps.

(** [np.vstack(arrs)] for arrays of rank at most 1, which is what the
    callers below pass. *)
Definition vstack {A} (arrs : list (ndarray A)) : result (ndarray A) :=
  do rows <- mapR (λ a, match as_row a with
                        | Some r => Ok r
                        | None => Raise (ValueError "vstack: rank above 1")
                        end) arrs;
  match rows with
  | [] => Raise (ValueError "need at least one array to concatenate")
  | r0 :: _ =>
      if forallb (λ r, Nat.eqb (length r) (length r0)) rows
      then Ok (Arr2 (length rows) (length r0) rows)
      else Raise (ValueError "all the input array dimensions must match")
  end.

(** ** Element values *)

(** A float64 as far as comparisons see it: not-a-number, the two
    infinities, or a finite value (rounding is not modelled). *)
Inductive fval : Type :=
| NaN
| NInf
| Fin (q : Q)
| PInf.

(** [a <= b] on floats: false as soon as one side is NaN. *)
Definition fle (a b : fval) : bool :=
  match a, b with
  | NaN, _ | _, NaN => false
  | NInf, _ => true
  | _, PInf => true
  | Fin x, Fin y => Qle_bool x y
  | Fin _, NInf => false
  | PInf, _ => false
  end.


Definition is_nan (a : fval) : bool :=
  match a with NaN => true | _ => false end.

(** ** The library environment *)

(** [np.percentile(a, q)] for a flattened array and one percentage;
    [np.percentile(a, qs)] with an array of percentages is this function
    mapped over [qs]. *)
Class Percentile := { np_percentile : list fval → Z → fval }.

(** ** Bin by deciles *)

(** [np.arange(10, 101, 10)] *)
Definition decile_range : list Z := map (λ k, 10 * Z.of_nat k) (seq 1 10).

(** [l[-1] = x] *)
Definition set_last {A} (x : A) (l : list A) : result (list A) :=
  match l with
  | [] => Raise IndexError
  | _ => Ok (<[pred (length l) := x]> l)
  end.

Definition get_deciles `{Percentile} (matrix : ndarray fval) (axis : option Z)
  : result (list fval) :=
  match axis with
  | Some _ => Raise (NotImplementedError "Axis is not yet implemented")
  | None =>
      assert_ (0 <? ndim matrix)%nat;;
      assert_ (0 <? size matrix)%nat;;
      let deciles := map (np_percentile (ravel matrix)) decile_range in
      set_last PInf deciles
  end.

(** The cells of [np.zeros_like(matrix)] are float64 like those of the
    matrix, and the integer [i + bin_start] is converted when it is stored:
    to the nearest value with 53 significant bits, a tie going to the even
    one.  The labels stay integers, which is how they are held here.  (The
    finite range of float64 is not modelled: only the rounding is.) *)

(** The multiple of [u] nearest to [a], the even multiple on a tie. *)
Definition round_to_even (u a : Z) : Z :=
  let q := a / u in
  let r := a mod u in
  if 2 * r <? u then q * u
  else if u <? 2 * r then (q + 1) * u
  else if Z.even q then q * u else (q + 1) * u.

(** The gap between neighbouring float64 values at the magnitude [a]. *)
Definition float64_ulp (a : Z) : Z := 2 ^ Z.max 0 (Z.log2 a - 52).

(** [float(z)] for an integer [z], as an integer. *)
Definition float64_of_Z (z : Z) : Z :=
  Z.sgn z * round_to_even (float64_ulp (Z.abs z)) (Z.abs z).

(** [binned[matrix <= decile] = label] *)
Definition assign_where_le (matrix : ndarray fval) (decile : fval) (label : Z)
    (binned : ndarray Z) : ndarray Z :=
  match nd_zip_with (λ x old, if fle x decile then label else old)
          matrix binned with
  | Some b => b
  | None => binned
  end.

Definition bin_by_decile (matrix : ndarray fval) (deciles : option (list fval))
    (bin_start : Z) (axis : option Z) : result (ndarray Z) :=
  match axis with
  | Some _ => Raise (NotImplementedError "Axis is not yet implemented")
  | None =>
      assert_ (0 <? ndim matrix)%nat;;
      assert_ (0 <? size matrix)%nat;;
      match deciles with
      | None => Raise AssertionError
      | Some deciles =>
          assert_ (length deciles =? 10)%nat;;
          Ok (foldl (λ binned_matrix i,
                       match deciles !! i with
                       | Some decile =>
                           assign_where_le matrix decile
                             (float64_of_Z (Z.of_nat i + bin_start))
                             binned_matrix
                       | None => binned_matrix
                       end)
                (nd_map (λ _, 0) matrix)
                (reverse (seq 0 10)))
      end
  end.

Module Bin.

  (** The fitted deciles: one array when [axis] is [None], a list of arrays
      (one per column or per row) otherwise. *)
Inductive deciles : Type :=
  | Whole (d : list fval)
  | PerSlice (ds : list (list fval)).

Record t : Type := mk {
    deciles_ : option deciles;
    bin_start_ : Z;
    axis_ : option Z
  }.

Definition init (bin_start : Z) (axis : option Z) : result t :=
    if bool_decide (axis ≠ None ∧ axis ≠ Some 1 ∧ axis ≠ Some 0)
    then Raise (NotImplementedError "Axis is not yet implemented")
    else Ok {| deciles_ := None; bin_start_ := bin_start; axis_ := axis |}.

Definition set_deciles (self : t) (d : deciles) : t :=
    {| deciles_ := Some d; bin_start_ := bin_start_ self; axis_ := axis_ self |}.

Definition fit `{Percentile} (self : t) (matrix : ndarray fval) : result t :=
    match axis_ self with
    | None =>
        do d <- get_deciles matrix (axis_ self);
        Ok (set_deciles self (Whole d))
    | Some 0 =>
        do cols <- iter (T matrix);
        do ds <- mapR (λ col, get_deciles col None) cols;
        Ok (set_deciles self (PerSlice ds))
    | Some 1 =>
        do rows <- iter matrix;
        do ds <- mapR (λ row, get_deciles row None) rows;
        Ok (set_deciles self (PerSlice ds))
    | Some _ => Ok self
    end.

  (** The per-slice decile arrays that [zip] walks; a single decile array
      iterates as its scalar entries, which have no length. *)
Definition slices (d : deciles) : list (option (list fval)) :=
    match d with
    | PerSlice ds => map Some ds
    | Whole d => map (λ _, None) d
    end.

Definition bin_slice (self : t) (p : ndarray fval * option (list fval))
    : result (ndarray Z) :=
    match p.2 with
    | Some decile => bin_by_decile p.1 (Some decile) (bin_start_ self) None
    | None => Raise (TypeError "object of type 'numpy.float64' has no len()")
    end.

Definition transform (self : t) (matrix : ndarray fval) (copy : bool)
    : result (ndarray Z) :=
    assert_ (bool_decide (is_Some (deciles_ self)));;
    match deciles_ self with
    | None => Raise AssertionError
    | Some d =>
        do res <-
          match axis_ self with
          | None =>
              match d with
              | Whole d =>
                  bin_by_decile matrix (Some d) (bin_start_ self) (axis_ self)
              | PerSlice _ => Raise AssertionError
              end
          | Some 0 =>
              do cols <- iter (T matrix);
              do columns <- mapR (bin_slice self) (zip cols (slices d));
              do stacked <- vstack columns;
              Ok (T stacked)
          | Some 1 =>
              do rows <- iter matrix;
              do rows' <- mapR (bin_slice self) (zip rows (slices d));
              vstack rows'
          | Some _ => Raise UnboundLocalError
          end;
        assert_ (bool_decide (shape res = shape matrix));;
        Ok res
    end.

Definition reverse_transform (self : t) (matrix : ndarray fval) (copy : bool)
    : result (ndarray Z) :=
    Raise (NotImplementedError "This method is not supported").

End Bin.

(** The label the claim describes: [bin_start] plus the smallest index
    whose decile is at least [x], as the float64 cell holds it; the initial
    zero when there is none. *)
Definition bin_label (deciles : list fval) (bin_start : Z) (x : fval) : Z :=
  match list_find (λ d, fle x d = true) deciles with
  | Some (i, _) => float64_of_Z (bin_start + Z.of_nat i)
  | None => 0
  end.


(** *** A reference [np.percentile]

    Linear interpolation between the two nearest order statistics, in exact
    arithmetic, for data that is finite throughout; other data is answered
    with NaN.  It instantiates [Percentile] for examples. *)

Fixpoint insert_sorted (x : Q) (l : list Q) : list Q :=
  match l with
  | [] => [x]
  | y :: l' => if Qle_bool x y then x :: l else y :: insert_sorted x l'
  end.

Definition sort_values (l : list Q) : list Q := foldr insert_sorted [] l.

Definition finite_values (l : list fval) : option (list Q) :=
  mapM (λ x, match x with Fin q => Some q | _ => None end) l.

Definition percentile_linear (a : list fval) (q : Z) : fval :=
  match finite_values a with
  | None | Some [] => NaN
  | Some qs =>
      let s := sort_values qs in
      let pos := ((q # 100) * (Z.of_nat (length s) - 1 # 1))%Q in
      let lo := Z.to_nat (Qfloor pos) in
      let frac := (pos - (Qfloor pos # 1))%Q in
      let lo_v := nth lo s 0%Q in
      let hi_v := nth (S lo) s lo_v in
      Fin (Qred (lo_v + (hi_v - lo_v) * frac))
  end.

Definition linear_percentile : Percentile :=
  {| np_percentile := percentile_linear |}.

(** The matrix of the module's own test. *)
Definition x1 : ndarray fval :=
  Arr2 4 3 [[Fin 2; Fin 7; Fin 9];
            [Fin 6; Fin 9; Fin 2];
            [Fin 4; Fin 0; Fin 2];
            [Fin 7; Fin 2; Fin 5]].

(** ** Shuffle indices *)

(** [np.random]: the process-wide generator.  [np_random_seed seed] is the
    state [np.random.seed(seed)] leaves, whatever the state was before;
    [np_random_choice g n] is [np.random.choice(n, n, replace=False)] drawn
    in state [g], with the state it leaves.  Drawing [n] of [n] without
    replacement gives a permutation of [range(n)]. *)
Class Random := {
  rng : Type;
  np_random_seed : Z → rng;
  np_random_choice : rng → nat → list nat * rng;
  np_random_choice_perm g n : (np_random_choice g n).1 ≡ₚ seq 0 n
}.

(** Modelled from the spec: the labeled-matrix collaborator type, which
    exposes [data] (a 2D array), [rowlabels] and [columnlabels] (1D arrays
    aligned with the rows and the columns) and [copy()]. *)
Record Matrix (A L : Type) : Type := mkMatrix {
  data : ndarray A;
  rowlabels : list L;
  columnlabels : list L
}.
Arguments mkMatrix {A L} data rowlabels columnlabels.
Arguments data {A L} m.
Arguments rowlabels {A L} m.
Arguments columnlabels {A L} m.

(** The labels are aligned with a rank-2 [data]. *)
Definition aligned {A L} (m : Matrix A L) : Prop :=
  wf (data m) ∧
  shape (data m) = [length (rowlabels m); length (columnlabels m)].

(** [l[idx]] with an array of non-negative indices. *)
Definition take_items {A} (l : list A) (idx : list nat) : result (list A) :=
  mapR (λ i, match l !! i with
             | Some x => Ok x
             | None => Raise IndexError
             end) idx.

(** [a[idx]]: selection along the first axis. *)
Definition take_rows {A} (a : ndarray A) (idx : list nat)
  : result (ndarray A) :=
  match a with
  | Arr0 _ => Raise IndexError
  | Arr1 v => do v' <- take_items v idx; Ok (Arr1 v')
  | Arr2 r c rows =>
      do rows' <- take_items rows idx; Ok (Arr2 (length idx) c rows')
  end.

(** [a[:, idx]]: selection along the second axis. *)
Definition take_columns {A} (a : ndarray A) (idx : list nat)
  : result (ndarray A) :=
  match a with
  | Arr2 r c rows =>
      if forallb (λ j, j <? c)%nat idx
      then do rows' <- mapR (λ row, take_items row idx) rows;
           Ok (Arr2 r (length idx) rows')
      else Raise IndexError
  | _ => Raise IndexError
  end.

(** [a.shape[k]] *)
Definition shape_at {A} (a : ndarray A) (k : nat) : result nat :=
  match shape a !! k with
  | Some n => Ok n
  | None => Raise IndexError
  end.

Fixpoint insert_by_key (p : nat * nat) (l : list (nat * nat))
  : list (nat * nat) :=
  match l with
  | [] => [p]
  | q :: l' => if (p.1 <=? q.1)%nat then p :: l else q :: insert_by_key p l'
  end.

(** [np.argsort(keys)]: the positions of [keys] in increasing order of
    their keys (equal keys in order of position; NumPy's default sort does
    not promise that order, which plays no part for distinct keys). *)
Definition argsort (keys : list nat) : list nat :=
  map snd (foldr insert_by_key [] (zip keys (seq 0 (length keys)))).

(** [np.argsort(indices_)] where the attribute may still be [None]: the
    rank-0 array holding [None] sorts as a one-element array. *)
Definition argsort_attr (indices : option (list nat)) : list nat :=
  match indices with
  | Some keys => argsort keys
  | None => [0%nat]
  end.

Definition get_shuffle_indices `{Random} (size : nat) (seed : option Z)
    (g : rng) : list nat * rng :=
  let g := match seed with
           | Some s => np_random_seed s
           | None => g
           end in
  np_random_choice g size.

Module Shuffler.

Record t : Type := mk {
  shuffle_rows_ : bool;
  shuffle_columns_ : bool;
  row_indices_ : option (list nat);
  column_indices_ : option (list nat);
  fitted_ : bool
}.

Definition unfitted_error : exn :=
  Exception "The fit() function must be called before transform()".

(** The constructor reseeds the process-wide generator. *)
Definition init `{Random} (shuffle_rows shuffle_columns : bool)
    (row_indices column_indices : option (list nat)) (seed : Z) (g : rng)
  : t * rng :=
  ({| shuffle_rows_ := shuffle_rows;
      shuffle_columns_ := shuffle_columns;
      row_indices_ := row_indices;
      column_indices_ := column_indices;
      fitted_ := false |},
   np_random_seed seed).

(** [fit] draws from the generator in the state it finds it in.  When it
    raises, the attributes set and the draws made so far are not
    reported. *)
Definition fit `{Random} {A L} (self : t) (matrix : Matrix A L) (g : rng)
  : result (t * rng) :=
  do rg <-
    (if shuffle_rows_ self && bool_decide (row_indices_ self = None)
     then do n <- shape_at (data matrix) 0;
          let (p, g) := get_shuffle_indices n None g in Ok (Some p, g)
     else Ok (row_indices_ self, g));
  do cg <-
    (if shuffle_columns_ self && bool_decide (column_indices_ self = None)
     then do n <- shape_at (data matrix) 1;
          let (p, g) := get_shuffle_indices n None rg.2 in Ok (Some p, g)
     else Ok (column_indices_ self, rg.2));
  Ok ({| shuffle_rows_ := shuffle_rows_ self;
         shuffle_columns_ := shuffle_columns_ self;
         row_indices_ := rg.1;
         column_indices_ := cg.1;
         fitted_ := true |}, cg.2).

(** Indexing with the attribute itself; [None] as an index adds an axis,
    which gives an array of a rank this model does not have. *)
Definition indices_of (indices : option (list nat)) : result (list nat) :=
  match indices with
  | Some idx => Ok idx
  | None => Raise (Exception "rank above 2: outside the model")
  end.

Definition reorder_rows {A L} (matrix : Matrix A L) (idx : list nat)
  : result (Matrix A L) :=
  do d <- take_rows (data matrix) idx;
  do labels <- take_items (rowlabels matrix) idx;
  Ok (mkMatrix d labels (columnlabels matrix)).

Definition reorder_columns {A L} (matrix : Matrix A L) (idx : list nat)
  : result (Matrix A L) :=
  do d <- take_columns (data matrix) idx;
  do labels <- take_items (columnlabels matrix) idx;
  Ok (mkMatrix d (rowlabels matrix) labels).

(** [matrix.copy()] gives an object with the same fields; the functions
    below return the fields of the object they return, which is the
    argument itself when [copy] is false and its clone otherwise. *)
Definition transform {A L} (self : t) (matrix : Matrix A L) (copy : bool)
  : result (Matrix A L) :=
  if negb (fitted_ self) then Raise unfitted_error
  else
    do matrix <-
      (if shuffle_rows_ self
       then do idx <- indices_of (row_indices_ self); reorder_rows matrix idx
       else Ok matrix);
    do matrix <-
      (if shuffle_columns_ self
       then do idx <- indices_of (column_indices_ self);
            reorder_columns matrix idx
       else Ok matrix);
    Ok matrix.

Definition reverse_transform {A L} (self : t) (matrix : Matrix A L)
    (copy : bool) : result (Matrix A L) :=
  do matrix <-
    (if shuffle_rows_ self
     then let inverse_row_indices := argsort_attr (row_indices_ self) in
          reorder_rows matrix inverse_row_indices
     else Ok matrix);
  do matrix <-
    (if shuffle_columns_ self
     then let reverse_column_indices := argsort_attr (column_indices_ self) in
          reorder_columns matrix reverse_column_indices
     else Ok matrix);
  Ok matrix.

End Shuffler.

(** *** A reference generator

    A counter that [seed] sets and every draw advances; a draw of size [n]
    in state [k] is [range(n)] rotated by [k].  It instantiates [Random]
    for examples: like any generator that is a stream, two draws in a row
    differ. *)
Definition rotation_choice (k n : nat) : list nat * nat :=
  (rotate k (seq 0 n), S k).

Lemma rotation_choice_perm (k n : nat) : (rotation_choice k n).1 ≡ₚ seq 0 n.
Proof.
  unfold rotation_choice, rotate. simpl.
  rewrite Permutation_app_comm. by rewrite take_drop.
Qed.

Definition rotation_random : Random :=
  {| rng := nat;
     np_random_seed := Z.to_nat;
     np_random_choice := rotation_choice;
     np_random_choice_perm := rotation_choice_perm |}.

(** ** [Preprocess.fit_transform], as each transformer inherits it *)


Definition Shuffler_fit_transform `{Random} {A L} (self : Shuffler.t)
    (matrix : Matrix A L) (copy : bool) (g : rng)
  : result (Shuffler.t * rng * Matrix A L) :=
  do fitted <- Shuffler.fit self matrix g;
  do res <- Shuffler.transform fitted.1 matrix copy;
  Ok (fitted, res).

(** ** Polynomial features *)

(** [itertools.combinations(l, k)]: the [k]-element subsequences of [l],
    in lexicographic order of their positions. *)
Fixpoint combinations {A} (l : list A) (k : nat) : list (list A) :=
  match l, k with
  | _, 0%nat => [[]]
  | [], S _ => []
  | x :: l', S k' => map (cons x) (combinations l' k') ++ combinations l' k
  end.

(** [itertools.combinations_with_replacement(l, k)]: the [k]-element
    selections from [l] in which an element may repeat, in lexicographic
    order of their positions. *)
Fixpoint combinations_with_replacement {A} (l : list A) (k : nat)
  : list (list A) :=
  match k with
  | 0%nat => [[]]
  | S k' =>
      (fix from (l : list A) : list (list A) :=
         match l with
         | [] => []
         | x :: l' =>
             map (cons x) (combinations_with_replacement l k') ++ from l'
         end) l
  end.

(** [range(start, stop)] for a natural [start]. *)
Definition range (start : nat) (stop : Z) : list nat :=
  seq start (Z.to_nat (stop - Z.of_nat start)).

(** Modelled from the spec: [is_numeric_matrix] and [is_lexical_matrix] of
    [common.typeutil] are boolean predicates over the element type of a
    matrix, mutually exclusive.  A matrix carries the kind of its
    elements: numbers, strings, or something else.  The numbers are what
    an integer or floating-point array holds, a finite value, an infinity
    or NaN; their arithmetic is NumPy's (see [Product]).  The strings are
    Python
    strings held by reference ([dtype=object], as in the module's own
    test): a fixed-width string type, which cuts what is assigned to it,
    is not modelled. *)
Inductive dmatrix : Type :=
| Numeric (a : ndarray fval)
| Lexical (a : ndarray string)
| Other (a : ndarray unit).

Definition is_numeric_matrix (m : dmatrix) : bool :=
  match m with Numeric _ => true | _ => false end.

Definition is_lexical_matrix (m : dmatrix) : bool :=
  match m with Lexical _ => true | _ => false end.

Definition dshape (m : dmatrix) : list nat :=
  match m with
  | Numeric a => shape a
  | Lexical a => shape a
  | Other a => shape a
  end.

Definition dndim (m : dmatrix) : nat := length (dshape m).

Definition dsize (m : dmatrix) : nat := foldr Nat.mul 1%nat (dshape m).

(** A Python value as [tolist()] returns it: a string or a list. *)
#[warnings="-register-all"]
Inductive pyval : Type :=
| PyStr (s : string)
| PyList (l : list pyval).

(** [np.squeeze(a).tolist()] for a string array [a] of shape [(n, k)] given
    by its rows: the axes of length one are dropped. *)
Definition squeeze_tolist (n k : nat) (a : list (list string)) : pyval :=
  match n, k with
  | 1%nat, 1%nat => PyStr (default EmptyString (head (concat a)))
  | 1%nat, _ => PyList (map PyStr (concat a))
  | _, 1%nat => PyList (map PyStr (concat a))
  | _, _ => PyList (map (λ row, PyList (map PyStr row)) a)
  end.

Definition as_str (v : pyval) : result string :=
  match v with
  | PyStr s => Ok s
  | PyList _ =>
      Raise (TypeError "sequence item: expected string, list found")
  end.

(** [sep.join(v)]: a list is joined item by item, each of which must be a
    string; a string is joined character by character. *)
Definition join (sep : string) (v : pyval) : result string :=
  match v with
  | PyStr s =>
      Ok (String.concat sep
            (map (λ a, String a EmptyString) (String.list_ascii_of_string s)))
  | PyList items => do strs <- mapR as_str items; Ok (String.concat sep strs)
  end.

(** [np.empty] allocates without initialising: these stand for what the
    memory holds. *)
Class Allocation := { np_empty_num : fval; np_empty_str : string }.

(** [a.prod()] for the entries [a] of one row: NumPy computes it in the
    element type of the matrix, where integers wrap around and floats are
    rounded and overflow to an infinity.  Nothing is assumed of it. *)
Class Product := { np_prod : list fval → fval }.

(** The product of the entries of [row] at the positions [c]. *)
Definition row_product `{Product} (row : list fval) (c : list nat) : fval :=
  np_prod (omap (λ j, row !! j) c).

Module PolynomialFeatures.

Record t : Type := mk {
  degree_ : Z;
  interaction_only_ : bool;
  include_bias_ : bool;
  n_input_features_ : option nat;
  n_output_features_ : option nat
}.

Definition init (degree : Z) (interaction_only include_bias : bool) : t :=
  {| degree_ := degree;
     interaction_only_ := interaction_only;
     include_bias_ := include_bias;
     n_input_features_ := None;
     n_output_features_ := None |}.

Definition _combinations (n_features : nat) (degree : Z)
    (interaction_only include_bias : bool) : list (list nat) :=
  let comb := if interaction_only then combinations
              else combinations_with_replacement in
  let start := if include_bias then 0%nat else 1%nat in
  concat (map (λ i, comb (seq 0 n_features) i) (range start (degree + 1))).

Definition fit (self : t) (matrix : dmatrix) (copy : bool) : result t :=
  assert_ (dndim matrix =? 2)%nat;;
  assert_ (0 <? dsize matrix)%nat;;
  do n_features <- match dshape matrix !! 1%nat with
                   | Some n => Ok n
                   | None => Raise IndexError
                   end;
  let combinations :=
    _combinations n_features (degree_ self) (interaction_only_ self)
      (include_bias_ self) in
  Ok {| degree_ := degree_ self;
        interaction_only_ := interaction_only_ self;
        include_bias_ := include_bias_ self;
        n_input_features_ := Some n_features;
        n_output_features_ := Some (length combinations) |}.

(** An attribute that only [fit] creates. *)
Definition attr {A} (a : option A) : result A :=
  match a with
  | Some x => Ok x
  | None => Raise (AttributeError "object has no such attribute")
  end.

(** The loop [for i, c in enumerate(combinations)] over the columns of the
    output: [body i c] is the column computed for combination [c], which
    is then stored at position [i]. *)
Fixpoint fill {A} (body : nat → list nat → result (list A))
    (cols : list (list A)) (i : nat) (combs : list (list nat))
  : result (list (list A)) :=
  match combs with
  | [] => Ok cols
  | c :: combs' =>
      do col <- body i c;
      if (i <? length cols)%nat then fill body (<[i := col]> cols) (S i) combs'
      else Raise IndexError
  end.

(** [matrix[:, c].prod(1)] *)
Definition numeric_column `{Product} (rows : list (list fval)) (i : nat)
    (c : list nat) : result (list fval) :=
  do sub <- mapR (λ row, take_items row c) rows;
  Ok (map np_prod sub).

(** The lexical branch: one string for the whole column. *)
Definition lexical_column (n_samples n_features : nat) (include_bias : bool)
    (rows : list (list string)) (i : nat) (c : list nat)
  : result (list string) :=
  do sub <- mapR (λ row, take_items row c) rows;
  let n_poly1_feats := (n_features + (if include_bias then 1 else 0))%nat in
  let sep := if (n_poly1_feats <=? i)%nat then "*"%string
             else EmptyString in
  do x <- join sep (squeeze_tolist n_samples (length c) sub);
  Ok (replicate n_samples x).

Definition rows_of {A} (a : ndarray A) : list (list A) :=
  match a with
  | Arr2 _ _ rows => rows
  | Arr1 v => [v]
  | Arr0 x => [[x]]
  end.

Definition transform `{Allocation} `{Product} (self : t) (matrix : dmatrix)
    (copy : bool) : result dmatrix :=
  assert_ (dndim matrix =? 2)%nat;;
  assert_ (0 <? dsize matrix)%nat;;
  match dshape matrix with
  | [n_samples; n_features] =>
      do n_in <- attr (n_input_features_ self);
      if negb (n_features =? n_in)%nat
      then Raise (ValueError "X shape does not match training shape")
      else
        do n_out <- attr (n_output_features_ self);
        let combinations :=
          _combinations n_features (degree_ self) (interaction_only_ self)
            (include_bias_ self) in
        match matrix with
        | Numeric a =>
            do cols <- fill (numeric_column (rows_of a))
                         (replicate n_out (replicate n_samples np_empty_num))
                         0 combinations;
            Ok (Numeric (Arr2 n_samples n_out (transpose n_samples cols)))
        | Lexical a =>
            do cols <- fill (lexical_column n_samples n_features
                               (include_bias_ self) (rows_of a))
                         (replicate n_out (replicate n_samples np_empty_str))
                         0 combinations;
            Ok (Lexical (Arr2 n_samples n_out (transpose n_samples cols)))
        | Other a =>
            do cols <- fill (λ _ _, Raise (TypeError "Unsupported matrix type"))
                         (replicate n_out (replicate n_samples tt))
                         0 combinations;
            Ok (Other (Arr2 n_samples n_out (transpose n_samples cols)))
        end
  | _ => Raise AssertionError
  end.

Definition reverse_transform (self : t) (matrix : dmatrix) (copy : bool)
  : result dmatrix :=
  Raise (NotImplementedError "This method is not supported").

Definition fit_transform `{Allocation} `{Product} (self : t)
    (matrix : dmatrix)
    (copy : bool) : result (t * dmatrix) :=
  do self <- fit self matrix true;
  do res <- transform self matrix copy;
  Ok (self, res).

End PolynomialFeatures.

(** The module's own tests of [PolynomialFeatures]. *)
Definition x1_binned_exp : dmatrix :=
  Numeric (Arr2 4 3
             (map (map Fin) [[1; 8; 10]; [7; 10; 1]; [5; 1; 1]; [8; 1; 6]]%Q)).

Definition x_alpha : dmatrix :=
  Lexical (Arr2 1 3 [["a"; "b"; "c"]%string]).

Definition zero_memory : Allocation :=
  {| np_empty_num := Fin 0; np_empty_str := EmptyString |}.

(** A reference product: exact, without wrap-around, rounding or
    overflow; like NumPy's reduction it starts from the first entry.  It
    instantiates [Product] for examples. *)
Definition inf_times (positive : bool) (x : Q) : fval :=
  match (Qnum x ?= 0)%Z with
  | Eq => NaN
  | Gt => if positive then PInf else NInf
  | Lt => if positive then NInf else PInf
  end.

Definition fmul (a b : fval) : fval :=
  match a, b with
  | NaN, _ | _, NaN => NaN
  | Fin x, Fin y => Fin (Qred (x * y))
  | Fin x, PInf | PInf, Fin x => inf_times true x
  | Fin x, NInf | NInf, Fin x => inf_times false x
  | PInf, PInf | NInf, NInf => PInf
  | PInf, NInf | NInf, PInf => NInf
  end.

Definition exact_product : Product :=
  {| np_prod := λ l, match l with
                     | [] => Fin 1
                     | x :: l' => foldl fmul x l'
                     end |}.

(** The number of [k]-element subsets of an [n]-element set. *)
Fixpoint binom (n k : nat) : nat :=
  match n, k with
  | _, 0%nat => 1
  | 0%nat, S _ => 0
  | S n', S k' => binom n' k' + binom n' k
  end.

(** ** Standardize *)

(** The element types of the matrices that [Standardize] is given here:
    floating-point.  (Integer matrices, whose in-place division depends on
    the Python and NumPy versions, are left out.)  The numbers themselves
    are rationals: rounding, overflow, infinities and NaN are not
    modelled, and the element type is a tag. *)
Inductive dtype : Type := Float16 | Float32 | Float64.

#[global] Instance dtype_eq_dec : EqDecision dtype.
Proof. solve_decision. Defined.

(** [np.result_type] of two floating-point types: the wider one. *)
Definition result_type (d1 d2 : dtype) : dtype :=
  match d1, d2 with
  | Float64, _ | _, Float64 => Float64
  | Float32, _ | _, Float32 => Float32
  | Float16, Float16 => Float16
  end.

Record tarray : Type := mkT { dtype_of : dtype; arr : ndarray Q }.

(** Arrays are objects in a store; a location is an index into it, and a
    new array is put at its end. *)
Abbreviation loc := nat (only parsing).
Abbreviation heap := (list tarray) (only parsing).

(** A computation on the store.  What an exception leaves of the store is
    kept: arrays modified before it stay modified. *)
Definition St (A : Type) : Type := heap → result A * heap.

Definition retS {A} (a : A) : St A := λ h, (Ok a, h).
Definition raiseS {A} (e : exn) : St A := λ h, (Raise e, h).
Definition liftS {A} (r : result A) : St A := λ h, (r, h).

Definition bindS {A B} (m : St A) (k : A → St B) : St B :=
  λ h, match m h with
       | (Ok a, h') => k a h'
       | (Raise e, h') => (Raise e, h')
       end.

Notation "'doS' x <- m ; k" := (bindS m (fun x => k))
  (at level 10, x name, m at level 100, k at level 200).

Definition new (x : tarray) : St loc := λ h, (Ok (length h), h ++ [x]).

(** Reading a location.  Every reference of a Python program is to a live
    object; the other branch is there for totality only. *)
Definition load (l : loc) : St tarray :=
  λ h, match h !! l with
       | Some x => (Ok x, h)
       | None => (Raise (Exception "no such object"), h)
       end.

Definition store (l : loc) (x : tarray) : St unit :=
  λ h, (Ok tt, <[l := x]> h).

(** *** Broadcasting *)

(** An array of rank at most two as a matrix: NumPy aligns two shapes at
    their last axis and reads a missing axis as one of length 1. *)
Definition as_matrix {A} (a : ndarray A) : nat * nat * list (list A) :=
  match a with
  | Arr0 x => (1%nat, 1%nat, [[x]])
  | Arr1 v => (1%nat, length v, [v])
  | Arr2 r c rows => (r, c, rows)
  end.

Definition broadcast_dim (n m : nat) : result nat :=
  if (n =? m)%nat then Ok n
  else if (n =? 1)%nat then Ok m
  else if (m =? 1)%nat then Ok n
  else Raise (ValueError "operands could not be broadcast together").

(** The items [l] of an axis of length [n], along an axis of length [m]:
    the items themselves, or the only one of them repeated. *)
Definition stretch {A} (n m : nat) (l : list A) : list A :=
  if (n =? m)%nat then l
  else match l with
       | [x] => replicate m x
       | _ => l
       end.

(** [f] applied elementwise to [a] and [b] broadcast against each other. *)
Definition broadcast_op {A B C} (f : A → B → C) (a : ndarray A)
    (b : ndarray B) : result (ndarray C) :=
  match a, b with
  | Arr0 x, Arr0 y => Ok (Arr0 (f x y))
  | _, _ =>
      let '(ra, ca, rowsa) := as_matrix a in
      let '(rb, cb, rowsb) := as_matrix b in
      do r <- broadcast_dim ra rb;
      do c <- broadcast_dim ca cb;
      let rows :=
        zip_with (zip_with f)
          (stretch ra r (map (stretch ca c) rowsa))
          (stretch rb r (map (stretch cb c) rowsb)) in
      Ok (if (ndim a <? 2)%nat && (ndim b <? 2)%nat
          then Arr1 (concat rows)
          else Arr2 r c rows)
  end.

(** [a op b]: a new array. *)
Definition binop (f : Q → Q → Q) (a b : loc) : St loc :=
  doS x <- load a;
  doS y <- load b;
  doS z <- liftS (broadcast_op f (arr x) (arr y));
  new (mkT (result_type (dtype_of x) (dtype_of y)) z).

(** [a[:] op= b]: the result must have the shape of [a], whose buffer
    receives it. *)
Definition inplace (f : Q → Q → Q) (a b : loc) : St unit :=
  doS x <- load a;
  doS y <- load b;
  doS z <- liftS (broadcast_op f (arr x) (arr y));
  if eqb_shape (shape z) (shape (arr x))
  then store a (mkT (dtype_of x) z)
  else raiseS (ValueError "non-broadcastable output operand").

(** *** Means and standard deviations *)

Definition Qsum (l : list Q) : Q := foldr Qplus 0%Q l.

(** [v.mean()] *)
Definition mean_list (l : list Q) : Q :=
  (Qsum l / inject_Z (Z.of_nat (length l)))%Q.

(** The square root is the library's. *)
Class Sqrt := { np_sqrt : Q → Q }.

(** [v.std()]: the root of the mean of the squared distances to the
    mean. *)
Definition std_list `{Sqrt} (l : list Q) : Q :=
  let m := mean_list l in
  np_sqrt (mean_list (map (λ x, (Qabs (x - m) * Qabs (x - m))%Q) l)).

(** [np.expand_dims(f(matrix, axis=axis), axis=axis)] for a reduction [f]:
    the axis is kept with length 1. *)
Definition reduce_keepdims (f : list Q → Q) (a : ndarray Q) (axis : nat)
  : result (ndarray Q) :=
  match a, axis with
  | Arr1 v, 0%nat => Ok (Arr1 [f v])
  | Arr2 r c rows, 0%nat => Ok (Arr2 1 c [map f (transpose c rows)])
  | Arr2 r c rows, 1%nat => Ok (Arr2 r 1 (map (λ row, [f row]) rows))
  | _, _ => Raise (ValueError "'axis' entry is out of bounds")
  end.

(** Modelled from the spec: [NEARZERO] of [util] is a near-zero
    epsilon. *)
Class Util := { NEARZERO : Q }.

Definition Qlt_bool (x y : Q) : bool := negb (Qle_bool y x).

Definition get_mean_and_std `{Sqrt} `{Util} (matrix : loc) (axis : Z)
  : St (loc * loc) :=
  doS m <- load matrix;
  doS _ <- liftS (assert_ (0 <? ndim (arr m))%nat);
  doS _ <- liftS (assert_ (0 <? size (arr m))%nat);
  doS _ <- liftS (assert_ ((0 <=? axis) && (axis <? Z.of_nat (ndim (arr m)))));
  doS mean <- liftS (reduce_keepdims mean_list (arr m) (Z.to_nat axis));
  doS mmean <- new (mkT (dtype_of m) mean);
  doS sd <- liftS (reduce_keepdims std_list (arr m) (Z.to_nat axis));
  doS mstd <- new (mkT (dtype_of m) sd);
  if existsb (λ x, Qlt_bool (Qabs x) NEARZERO) (ravel sd)
  then raiseS (Exception
                 "Standard deviation calculation has near zero values.")
  else retS (mmean, mstd).

Definition not_float64 (m : tarray) : bool :=
  negb (bool_decide (dtype_of m = Float64)).

Definition standardize (matrix : loc) (mmean mstd : option loc) (axis : Z)
    (copy : bool) : St loc :=
  doS m <- load matrix;
  if negb copy && not_float64 m
  then raiseS (TypeError "Matrix should be of type 'float64'")
  else
    doS _ <- liftS (assert_ (0 <? ndim (arr m))%nat);
    doS _ <- liftS (assert_ (0 <? size (arr m))%nat);
    doS _ <- liftS (assert_ ((0 <=? axis)
                             && (axis <? Z.of_nat (ndim (arr m)))));
    match mmean, mstd with
    | Some mmean, Some mstd =>
        doS matrix <- (if copy then binop Qminus matrix mmean
                       else doS _ <- inplace Qminus matrix mmean;
                            retS matrix);
        doS _ <- inplace Qdiv matrix mstd;
        retS matrix
    | _, _ => raiseS AssertionError
    end.

Definition no_ndim : exn :=
  AttributeError "'NoneType' object has no attribute 'ndim'".

Definition reverse_standardize (matrix : loc) (mmean mstd : option loc)
    (axis : Z) (copy : bool) : St loc :=
  doS m <- load matrix;
  if negb copy && not_float64 m
  then raiseS (TypeError "Matrix should be of type 'float64'")
  else
    doS _ <- liftS (assert_ (0 <? ndim (arr m))%nat);
    doS _ <- liftS (assert_ (0 <? size (arr m))%nat);
    doS _ <- liftS (assert_ ((0 <=? axis)
                             && (axis <? Z.of_nat (ndim (arr m)))));
    match mmean with
    | None => raiseS no_ndim
    | Some mmean =>
        doS mn <- load mmean;
        doS _ <- liftS (assert_ (ndim (arr mn) =? ndim (arr m))%nat);
        match mstd with
        | None => raiseS no_ndim
        | Some mstd =>
            doS sd <- load mstd;
            doS _ <- liftS (assert_ (ndim (arr mn) =? ndim (arr sd))%nat);
            doS matrix <- (if copy then binop Qmult matrix mstd
                           else doS _ <- inplace Qmult matrix mstd;
                                retS matrix);
            doS _ <- inplace Qplus matrix mmean;
            retS matrix
        end
    end.

Module Standardize.

Record t : Type := mk {
  axis_ : Z;
  mean_ : option loc;
  std_ : option loc
}.

Definition init (axis : Z) : result t :=
  assert_ (0 <=? axis);;
  Ok {| axis_ := axis; mean_ := None; std_ := None |}.

Definition fit `{Sqrt} `{Util} (self : t) (matrix : loc) : St t :=
  doS ms <- get_mean_and_std matrix (axis_ self);
  retS {| axis_ := axis_ self; mean_ := Some ms.1; std_ := Some ms.2 |}.

Definition is_not_None {A} (x : option A) : bool :=
  match x with Some _ => true | None => false end.

Definition transform (self : t) (matrix : loc) (copy : bool) : St loc :=
  doS _ <- liftS (assert_ (is_not_None (mean_ self)));
  doS _ <- liftS (assert_ (is_not_None (std_ self)));
  standardize matrix (mean_ self) (std_ self) (axis_ self) copy.

Definition reverse_transform (self : t) (matrix : loc) (copy : bool)
  : St loc :=
  doS _ <- liftS (assert_ (is_not_None (mean_ self)));
  doS _ <- liftS (assert_ (is_not_None (std_ self)));
  reverse_standardize matrix (mean_ self) (std_ self) (axis_ self) copy.

Definition fit_transform `{Sqrt} `{Util} (self : t) (matrix : loc)
    (copy : bool) : St (t * loc) :=
  doS self <- fit self matrix;
  doS res <- transform self matrix copy;
  retS (self, res).

End Standardize.

(** *** Notions used to state what [Standardize] computes *)

(** The slices of [a] along [axis]: what a reduction over that axis
    reduces, one after the other. *)
Definition slices (a : ndarray Q) (axis : nat) : list (list Q) :=
  match a, axis with
  | Arr1 v, 0%nat => [v]
  | Arr2 r c rows, 0%nat => transpose c rows
  | Arr2 r c rows, 1%nat => rows
  | _, _ => []
  end.

(** One value per slice of [a], as an array of the shape of [a] but of
    length 1 along [axis]. *)
Definition keepdims (a : ndarray Q) (axis : nat) (k : list Q) : ndarray Q :=
  match a, axis with
  | Arr2 r c _, 0%nat => Arr2 1 c [k]
  | Arr2 r c _, _ => Arr2 r 1 (map (λ x, [x]) k)
  | _, _ => Arr1 k
  end.

(** Every entry of [a] combined with the value of the slice it is in. *)
Definition op_along (g : Q → Q → Q) (a : ndarray Q) (axis : nat)
    (k : list Q) : ndarray Q :=
  match a, axis with
  | Arr0 x, _ => Arr0 x
  | Arr1 v, _ =>
      match k with
      | m :: _ => Arr1 (map (λ x, g x m) v)
      | [] => Arr1 v
      end
  | Arr2 r c rows, 0%nat => Arr2 r c (map (λ row, zip_with g row k) rows)
  | Arr2 r c rows, _ =>
      Arr2 r c (zip_with (λ row m, map (λ x, g x m) row) rows k)
  end.

(** The three assertions on the matrix and the axis. *)
Definition dims_ok (a : ndarray Q) (axis : Z) : bool :=
  (0 <? ndim a)%nat && (0 <? size a)%nat
  && ((0 <=? axis) && (axis <? Z.of_nat (ndim a))).


(** A reference square root: the integer root of the value scaled by
    [10^12], scaled back. *)
Definition sqrt_micro : Sqrt :=
  {| np_sqrt := λ q,
       (inject_Z (Z.sqrt (Qfloor (q * 1000000000000))) / 1000000)%Q |}.

Definition nearzero_1e8 : Util := {| NEARZERO := (1 # 100000000)%Q |}.

(** The matrix of the module's own tests. *)
Definition x1_std : tarray :=
  mkT Float64 (Arr2 4 3 [[2; 7; 9]; [6; 9; 2]; [4; 0; 2]; [7; 2; 5]]%Q).

(** * Properties *)

(** ** Results *)

Lemma bind_ok {A B} (m : result A) (k : A → result B) b :
  bind m k = Ok b ↔ ∃ a, m = Ok a ∧ k a = Ok b.
Proof.
  destruct m as [a|e]; simpl; split.
  - eauto.
  - by intros (a' & [= ->] & Hk).
  - discriminate.
  - by intros (a' & Habs & _).
Qed.

Lemma assert_ok b : assert_ b = Ok tt ↔ b = true.
Proof. destruct b; simpl; split; congruence. Qed.

Lemma mapR_ok {A B} (f : A → result B) (g : A → B) l :
  (∀ x, x ∈ l → f x = Ok (g x)) → mapR f l = Ok (map g l).
Proof.
  induction l as [|x l IH]; intros Hf; simpl; [done|].
  rewrite (Hf x) by left. simpl.
  rewrite IH; [done|]. intros y Hy. apply Hf. by right.
Qed.

Lemma mapR_length {A B} (f : A → result B) l l' :
  mapR f l = Ok l' → length l' = length l.
Proof.
  revert l'. induction l as [|x l IH]; intros l'; simpl.
  - by intros [= <-].
  - destruct (f x); simpl; [|done].
    destruct (mapR f l); simpl; [|done].
    intros [= <-]. simpl. f_equal. by apply IH.
Qed.

(** ** Integers stored in float64 cells *)










(** ** Bin *)

Section BinLabel.
  Variables (deciles : list fval) (bin_start : Z).





End BinLabel.





(** The labelling of a NaN element: no comparison holds, so the initial
    zero stays. *)
Lemma bin_label_nan (deciles : list fval) bin_start :
  bin_label deciles bin_start NaN = 0.
Proof.
  unfold bin_label.
  destruct (list_find _ deciles) as [[i d]|] eqn:Hf; [|done].
  by apply list_find_Some in Hf as (_ & Hle & _).
Qed.



(** Beyond 2^53 the labels are rounded when they are stored in the float64
    cells: with [bin_start = 2^53] the second bin gets the label of the
    first. *)
Example bin_by_decile_rounds_labels :
  bin_by_decile (Arr1 [Fin (1 # 2); Fin (3 # 2); Fin (17 # 2)])
    (Some [Fin 1; Fin 2; Fin 3; Fin 4; Fin 5; Fin 6; Fin 7; Fin 8; Fin 9;
           PInf])
    (2 ^ 53) None
  = Ok (Arr1 [2 ^ 53; 2 ^ 53; 2 ^ 53 + 8]).
Proof. vm_compute. reflexivity. Qed.

(** The module's own test of [Bin]: deciles of [x1] over the whole matrix,
    labels from [bin_start = 1]. *)
Example bin_x1 :
  let _ := linear_percentile in
  (do b <- Bin.init 1 None; do b <- Bin.fit b x1; Bin.transform b x1 true)
  = Ok (Arr2 4 3 [[1; 8; 10]; [7; 10; 1]; [5; 1; 1]; [8; 1; 6]]).
Proof. vm_compute. reflexivity. Qed.

(** The same fitted transformer on values outside the training range. *)
Example bin_x2 :
  let _ := linear_percentile in
  (do b <- Bin.init 1 None; do b <- Bin.fit b x1;
   Bin.transform b (Arr1 [Fin (-1); Fin 6; Fin 20]) true)
  = Ok (Arr1 [1; 7; 10]).
Proof. vm_compute. reflexivity. Qed.

(** ** Transposition *)

Section Transpose.
  Context {A : Type}.
  Implicit Types (rows cols : list (list A)) (row col : list A).

Lemma transpose_length c rows :
    Forall (λ row, length row = c) rows → length (transpose c rows) = c.
  Proof.
    induction 1 as [|row rows Hrow _ IH]; simpl.
    - apply length_replicate.
    - rewrite length_zip_with, IH, Hrow. lia.
  Qed.


Lemma transpose_cons r row cols :
    length row = length cols →
    transpose (S r) (zip_with cons row cols) = row :: transpose r cols.
  Proof.
    revert row. induction cols as [|col cols IH]; intros [|x row] Hlen;
      simpl in *; try done.
    rewrite (IH row) by lia. done.
  Qed.

  (** Transposing twice gives the rows back. *)
Lemma transpose_involutive c rows :
    Forall (λ row, length row = c) rows →
    transpose (length rows) (transpose c rows) = rows.
  Proof.
    induction 1 as [|row rows Hrow Hall IH]; simpl.
    - generalize (replicate c ([] : list A)). intros l.
      induction l as [|col l IHl]; simpl; [done|].
      rewrite IHl. by destruct col.
    - rewrite transpose_cons, IH; [done|].
      by rewrite transpose_length.
  Qed.

Lemma T_involutive (a : ndarray A) : wf a → T (T a) = a.
  Proof.
    destruct a as [x|v|r c rows]; simpl; [done..|].
    intros [<- Hall]. by rewrite transpose_involutive.
  Qed.

End Transpose.


(** ** Bin: fitting and transforming per column and per row *)

Section BinSlices.
  Context `{Percentile}.
  Variable bin_start : Z.









End BinSlices.



(** Per column on the module's test matrix, narrowed to its first two
    columns at transform time. *)
Example bin_x1_axis0 :
  let _ := linear_percentile in
  (do b <- Bin.init 1 (Some 0); do b <- Bin.fit b x1;
   Bin.transform b (Arr2 2 2 [[Fin 2; Fin 8]; [Fin 7; Fin 1]]) true)
  = Ok (Arr2 2 2 [[1; 9]; [10; 2]]).
Proof. vm_compute. reflexivity. Qed.

(** ** Index selection and its inverse *)

Lemma mapR_Forall2 {A B} (f : A → result B) l l' :
  mapR f l = Ok l' ↔ Forall2 (λ x y, f x = Ok y) l l'.
Proof.
  revert l'. induction l as [|x l IH]; intros l'; simpl.
  - split.
    + intros [= <-]. constructor.
    + intros Hall. by inversion Hall.
  - split.
    + destruct (f x) as [y|] eqn:Hfx; simpl; [|done].
      destruct (mapR f l) as [ys|] eqn:Hm; simpl; [|done].
      intros [= <-]. constructor; [done|]. by apply IH.
    + intros Hall. inversion Hall as [|? y ? ys Hfx Hrest]; subst.
      rewrite Hfx. simpl. apply IH in Hrest. by rewrite Hrest.
Qed.

Lemma take_items_Forall2 {A} (l : list A) idx l' :
  take_items l idx = Ok l' ↔ Forall2 (λ i x, l !! i = Some x) idx l'.
Proof.
  unfold take_items. rewrite mapR_Forall2.
  split; intros Hall; (eapply Forall2_impl; [exact Hall|]); simpl;
    intros i x.
  - by destruct (l !! i); intros [= ->].
  - by intros ->.
Qed.

Lemma take_items_total {A} (l : list A) idx :
  Forall (λ i, i < length l)%nat idx → ∃ l', take_items l idx = Ok l'.
Proof.
  induction 1 as [|i idx Hi _ (l' & IH)].
  - by exists [].
  - destruct (lookup_lt_is_Some_2 l i Hi) as [x Hx].
    exists (x :: l'). apply take_items_Forall2.
    constructor; [done|]. by apply take_items_Forall2.
Qed.

Lemma take_items_length {A} (l : list A) idx l' :
  take_items l idx = Ok l' → length l' = length idx.
Proof. intros Ht. symmetry. by eapply Forall2_length, take_items_Forall2. Qed.

Lemma insert_by_key_perm p l : insert_by_key p l ≡ₚ p :: l.
Proof.
  induction l as [|q l IH]; simpl; [done|].
  case_match; [done|]. rewrite IH. apply perm_swap.
Qed.

Lemma insert_by_key_sorted p l :
  Sorted (λ a b, a.1 ≤ b.1)%nat l →
  Sorted (λ a b, a.1 ≤ b.1)%nat (insert_by_key p l).
Proof.
  induction 1 as [|q l Hs IH Hhd]; simpl.
  - repeat constructor.
  - destruct (p.1 <=? q.1)%nat eqn:Hle.
    + apply Nat.leb_le in Hle. repeat constructor; done.
    + apply Nat.leb_gt in Hle. constructor; [done|].
      destruct Hhd as [|q' l Hq]; simpl.
      * constructor. lia.
      * case_match; constructor; [lia|done].
Qed.

Lemma Sorted_le_seq a n : Sorted le (seq a n).
Proof.
  revert a. induction n as [|n IH]; intros a; simpl; constructor; [apply IH|].
  destruct n; simpl; constructor. lia.
Qed.

(** On a permutation of [range(n)], [argsort] is the inverse permutation. *)
Lemma argsort_inverse (p : list nat) (n : nat) :
  p ≡ₚ seq 0 n →
  length (argsort p) = n ∧
  ∀ k j, argsort p !! k = Some j → p !! j = Some k.
Proof.
  intros Hp. unfold argsort.
  assert (Hlen : length p = n).
  { by rewrite Hp, length_seq. }
  set (s := foldr insert_by_key [] (zip p (seq 0 (length p)))).
  assert (Hperm : s ≡ₚ zip p (seq 0 (length p))).
  { unfold s. generalize (zip p (seq 0 (length p))). intros l.
    induction l as [|x l IH]; simpl; [done|].
    by rewrite insert_by_key_perm, IH. }
  assert (Hsorted : Sorted (λ a b, a.1 ≤ b.1)%nat s).
  { unfold s. generalize (zip p (seq 0 (length p))). intros l.
    induction l as [|x l IH]; simpl; [constructor|].
    by apply insert_by_key_sorted. }
  assert (Hkeys : s.*1 = seq 0 n).
  { apply (Sorted_unique le).
    - clear -Hsorted. induction Hsorted as [|q l Hs IH Hhd]; simpl;
        constructor; [done|].
      destruct Hhd; simpl; constructor. done.
    - apply Sorted_le_seq.
    - rewrite Hperm, fst_zip by (rewrite length_seq; lia). done. }
  split.
  - change (map snd s) with (s.*2).
    rewrite length_fmap, Hperm, length_zip_with, length_seq. lia.
  - intros k j Hj. change (map snd s) with (s.*2) in Hj.
    rewrite list_lookup_fmap in Hj.
    destruct (s !! k) as [[a j']|] eqn:Hsk; simpl in Hj; [|done].
    injection Hj as ->.
    assert (Ha : a = k).
    { assert (Hk : s.*1 !! k = Some a) by (by rewrite list_lookup_fmap, Hsk).
      rewrite Hkeys in Hk. apply lookup_seq in Hk. lia. }
    subst a.
    assert (Hin : (k, j) ∈ zip p (seq 0 (length p))).
    { rewrite <- Hperm. by eapply list_elem_of_lookup_2. }
    apply list_elem_of_lookup in Hin as [i Hi].
    apply lookup_zip_Some in Hi as [Hpi Hsi].
    apply lookup_seq in Hsi as [-> _]. done.
Qed.

(** Selecting by a permutation and then by its [argsort] gives the list
    back. *)
Lemma take_items_inverse {A} (l : list A) (p : list nat) :
  p ≡ₚ seq 0 (length l) →
  ∃ l', take_items l p = Ok l' ∧ length l' = length l ∧
        take_items l' (argsort p) = Ok l.
Proof.
  intros Hp.
  assert (Hlen : length p = length l) by (by rewrite Hp, length_seq).
  destruct (take_items_total l p) as [l' Hl'].
  { rewrite Hp. apply Forall_forall. intros i Hi.
    apply elem_of_seq in Hi. lia. }
  assert (Hlen' : length l' = length l).
  { by rewrite (take_items_length _ _ _ Hl'). }
  exists l'. split; [done|]. split; [done|].
  destruct (argsort_inverse p (length l) Hp) as [Hal Hinv].
  apply take_items_Forall2, Forall2_same_length_lookup_2; [done|].
  intros k j y Hj Hy. specialize (Hinv k j Hj).
  apply take_items_Forall2 in Hl'.
  destruct (Forall2_lookup_l _ _ _ _ _ Hl' Hinv) as (x & Hx & Hlk).
  congruence.
Qed.

Lemma take_items_elem {A} (P : A → Prop) (l : list A) idx l' :
  Forall P l → take_items l idx = Ok l' → Forall P l'.
Proof.
  intros Hall Ht. apply take_items_Forall2 in Ht.
  induction Ht as [|i x idx l' Hx _ IH]; constructor; [|done].
  rewrite Forall_forall in Hall. apply Hall.
  by eapply list_elem_of_lookup_2.
Qed.

Lemma take_each_inverse {A} (rows : list (list A)) (p : list nat) (c : nat) :
  Forall (λ row, length row = c) rows → p ≡ₚ seq 0 c →
  ∃ rows', mapR (λ row, take_items row p) rows = Ok rows' ∧
           Forall (λ row, length row = c) rows' ∧
           length rows' = length rows ∧
           mapR (λ row, take_items row (argsort p)) rows' = Ok rows.
Proof.
  intros Hall Hp. induction Hall as [|row rows Hrow _ IH].
  - by exists [].
  - destruct IH as (rows' & Hm & Hall' & Hlen & Hinv).
    destruct (take_items_inverse row p) as (row' & Ht & Hl & Hback).
    { by rewrite Hrow. }
    exists (row' :: rows'). cbn [mapR]. rewrite Ht, Hback. cbn [bind].
    rewrite Hm, Hinv. cbn [bind length]. repeat split; try done.
    + constructor; [congruence|done].
    + by rewrite Hlen.
Qed.

Lemma perm_seq_bounds (p : list nat) (c : nat) :
  p ≡ₚ seq 0 c → forallb (λ j, j <? c)%nat p = true.
Proof.
  intros Hp. apply forallb_forall. intros j Hj%list_elem_of_In.
  rewrite Hp in Hj. apply elem_of_seq in Hj. apply Nat.ltb_lt. lia.
Qed.

Section Reorder.
Context {A L : Type}.
Implicit Types (M : Matrix A L) (p q : list nat).

Lemma reorder_rows_inverse M q r c :
  aligned M → shape (data M) = [r; c] → q ≡ₚ seq 0 r →
  ∃ M1, Shuffler.reorder_rows M q = Ok M1 ∧
        aligned M1 ∧ shape (data M1) = [r; c] ∧
        Shuffler.reorder_rows M1 (argsort q) = Ok M.
Proof.
  destruct M as [[x|v|r' c' rows] rl cl]; intros [Hwf Hsh] Hrc Hq;
    simpl in *; try done.
  injection Hrc as -> ->. injection Hsh as Hr Hc. destruct Hwf as [Hlr Hall].
  assert (Hlq : length q = r) by (by rewrite Hq, length_seq).
  destruct (take_items_inverse rows q) as (rows1 & Ht & Hl & Hback).
  { by rewrite Hlr. }
  destruct (take_items_inverse rl q) as (rl1 & Htl & Hll & Hbackl).
  { by rewrite <- Hr. }
  destruct (argsort_inverse q r Hq) as [Hal _].
  exists (mkMatrix (Arr2 r c rows1) rl1 cl).
  unfold Shuffler.reorder_rows. simpl.
  rewrite Ht, Htl. cbn [bind]. rewrite Hlq.
  split; [done|]. split; [|split; [done|]].
  - split; simpl.
    + split; [lia|]. by eapply take_items_elem.
    + f_equal; [lia|congruence].
  - rewrite Hback, Hbackl. cbn [bind]. by rewrite Hal.
Qed.

Lemma reorder_columns_inverse M p r c :
  aligned M → shape (data M) = [r; c] → p ≡ₚ seq 0 c →
  ∃ M1, Shuffler.reorder_columns M p = Ok M1 ∧
        aligned M1 ∧ shape (data M1) = [r; c] ∧
        Shuffler.reorder_columns M1 (argsort p) = Ok M.
Proof.
  destruct M as [[x|v|r' c' rows] rl cl]; intros [Hwf Hsh] Hrc Hp;
    simpl in *; try done.
  injection Hrc as -> ->. injection Hsh as Hr Hc. destruct Hwf as [Hlr Hall].
  assert (Hlp : length p = c) by (by rewrite Hp, length_seq).
  destruct (take_each_inverse rows p c Hall Hp)
    as (rows1 & Ht & Hall1 & Hl & Hback).
  destruct (take_items_inverse cl p) as (cl1 & Htl & Hll & Hbackl).
  { by rewrite <- Hc. }
  destruct (argsort_inverse p c Hp) as [Hal Hinv].
  exists (mkMatrix (Arr2 r c rows1) rl cl1).
  unfold Shuffler.reorder_columns. simpl.
  rewrite (perm_seq_bounds p c Hp), Ht, Htl. cbn [bind]. rewrite Hlp.
  split; [done|]. split; [|split; [done|]].
  - split; simpl; [split; [lia|done]|]. f_equal; [done|congruence].
  - assert (Hb : forallb (λ j, j <? c)%nat (argsort p) = true).
    { apply forallb_forall. intros j Hj%list_elem_of_In.
      apply list_elem_of_lookup in Hj as [k Hk].
      apply Hinv, lookup_lt_Some in Hk. apply Nat.ltb_lt. lia. }
    rewrite Hb, Hback, Hbackl. cbn [bind]. by rewrite Hal.
Qed.

(** Reordering rows and reordering columns commute. *)
Lemma reorder_commute M q p MA MB MC :
  Shuffler.reorder_rows M q = Ok MA →
  Shuffler.reorder_columns MA p = Ok MB →
  Shuffler.reorder_columns M p = Ok MC →
  Shuffler.reorder_rows MC q = Ok MB.
Proof.
  destruct M as [[x|v|r c rows] rl cl];
    unfold Shuffler.reorder_rows, Shuffler.reorder_columns; simpl;
    intros HA HB HC; try done.
  destruct (take_items rows q) as [rowsA|] eqn:HrA; [|done].
  destruct (take_items rl q) as [rlA|] eqn:HlA; [|done].
  cbn [bind] in HA. injection HA as <-. simpl in HB.
  destruct (forallb _ p) eqn:Hb; [|done].
  destruct (mapR _ rowsA) as [rowsB|] eqn:HrB; [|done].
  destruct (mapR _ rows) as [rowsC|] eqn:HrC; [|done].
  destruct (take_items cl p) as [clB|] eqn:HlB; [|done].
  cbn [bind] in HB, HC. injection HB as <-. injection HC as <-. simpl.
  assert (Hrows : take_items rowsC q = Ok rowsB).
  { apply take_items_Forall2. apply take_items_Forall2 in HrA.
    apply mapR_Forall2 in HrB, HrC.
    apply Forall2_same_length_lookup_2.
    - rewrite (Forall2_length _ _ _ HrA). by eapply Forall2_length.
    - intros k i y Hk Hy.
      destruct (Forall2_lookup_l _ _ _ _ _ HrA Hk) as (xr & HxA & Hxr).
      pose proof (Forall2_lookup_lr _ _ _ _ _ _ HrB HxA Hy) as Hty.
      destruct (Forall2_lookup_l _ _ _ _ _ HrC Hxr) as (y' & HyC & Hty').
      simpl in *. congruence. }
  by rewrite Hrows, HlA.
Qed.
End Reorder.

(** ** Shuffler *)

Section ShufflerFacts.
Context `{Random} {A L : Type}.
Implicit Types (X : Matrix A L).

(** What [fit] stores on a rank-2 matrix when no index list was given. *)
Lemma shuffler_fit_drawn (sr sc : bool) X g r c :
  shape (data X) = [r; c] →
  ∃ q p g',
    Shuffler.fit (Shuffler.mk sr sc None None false) X g
    = Ok (Shuffler.mk sr sc q p true, g') ∧
    (if sr then ∃ q', q = Some q' ∧ q' = (np_random_choice g r).1
     else q = None) ∧
    (if sc
     then ∃ p', p = Some p' ∧
                p' = (np_random_choice
                        (if sr then (np_random_choice g r).2 else g) c).1
     else p = None).
Proof.
  intros Hsh. unfold Shuffler.fit, shape_at, get_shuffle_indices.
  rewrite Hsh. simpl.
  destruct sr, sc; simpl.
  - destruct (np_random_choice g r) as [q' g1]. simpl.
    destruct (np_random_choice g1 c) as [p' g2]. simpl.
    exists (Some q'), (Some p'), g2. split; [done|]. split; by eexists.
  - destruct (np_random_choice g r) as [q' g1]. simpl.
    exists (Some q'), None, g1. split; [done|]. split; [by eexists|done].
  - destruct (np_random_choice g c) as [p' g2]. simpl.
    exists None, (Some p'), g2. split; [done|]. split; [done|by eexists].
  - by exists None, None, g.
Qed.

Lemma shuffler_round_trip_fitted (sr sc : bool) q p X r c copy1 copy2 :
  aligned X → shape (data X) = [r; c] →
  (if sr then ∃ q', q = Some q' ∧ q' ≡ₚ seq 0 r else True) →
  (if sc then ∃ p', p = Some p' ∧ p' ≡ₚ seq 0 c else True) →
  ∃ Y, Shuffler.transform (Shuffler.mk sr sc q p true) X copy1 = Ok Y ∧
       Shuffler.reverse_transform (Shuffler.mk sr sc q p true) Y copy2
       = Ok X.
Proof.
  intros Hal Hsh Hq Hp.
  unfold Shuffler.transform, Shuffler.reverse_transform. simpl.
  destruct sr, sc; simpl.
  - destruct Hq as (q' & -> & Hq). destruct Hp as (p' & -> & Hp). simpl.
    destruct (reorder_rows_inverse X q' r c Hal Hsh Hq)
      as (XA & HA & HalA & HshA & _).
    destruct (reorder_columns_inverse XA p' r c HalA HshA Hp)
      as (XB & HB & HalB & HshB & _).
    destruct (reorder_columns_inverse X p' r c Hal Hsh Hp)
      as (XC & HC & HalC & HshC & HbackC).
    destruct (reorder_rows_inverse XC q' r c HalC HshC Hq)
      as (XB' & HB' & _ & _ & HbackB).
    assert (XB' = XB) as ->.
    { pose proof (reorder_commute X q' p' XA XB XC HA HB HC) as Hcomm.
      congruence. }
    exists XB. rewrite HA. cbn [bind]. rewrite HB. cbn [bind].
    split; [done|]. rewrite HbackB. cbn [bind]. by rewrite HbackC.
  - destruct Hq as (q' & -> & Hq). simpl.
    destruct (reorder_rows_inverse X q' r c Hal Hsh Hq)
      as (XA & HA & _ & _ & Hback).
    exists XA. rewrite HA. cbn [bind]. split; [done|]. by rewrite Hback.
  - destruct Hp as (p' & -> & Hp). simpl.
    destruct (reorder_columns_inverse X p' r c Hal Hsh Hp)
      as (XC & HC & _ & _ & Hback).
    exists XC. rewrite HC. cbn [bind]. split; [done|]. by rewrite Hback.
  - by exists X.
Qed.
End ShufflerFacts.

(** C3: for every labeled matrix whose labels are aligned with its data
    and every setting of the two shuffle flags, a [Shuffler] fitted on the
    matrix transforms it, and [reverse_transform] of the result restores
    [data], [rowlabels] and [columnlabels] exactly. *)
Theorem shuffler_round_trip `{Random} {A L : Type}
    (shuffle_rows shuffle_columns : bool) (seed : Z) (g0 : rng)
    (copy1 copy2 : bool) (X : Matrix A L) :
  aligned X →
  ∃ self g Y,
    Shuffler.fit
      (Shuffler.init shuffle_rows shuffle_columns None None seed g0).1 X
      (Shuffler.init shuffle_rows shuffle_columns None None seed g0).2
    = Ok (self, g) ∧
    Shuffler.transform self X copy1 = Ok Y ∧
    Shuffler.reverse_transform self Y copy2 = Ok X.
Proof.
  intros Hal. pose proof Hal as [_ Hsh].
  set (r := length (rowlabels X)) in *. set (c := length (columnlabels X)) in *.
  cbn [Shuffler.init fst snd].
  destruct (shuffler_fit_drawn shuffle_rows shuffle_columns X
              (np_random_seed seed) r c Hsh) as (q & p & g' & Hfit & Hq & Hp).
  destruct (shuffler_round_trip_fitted shuffle_rows shuffle_columns q p X r c
              copy1 copy2 Hal Hsh) as (Y & Ht & Hr).
  - destruct shuffle_rows; [|done].
    destruct Hq as (q' & -> & ->). eexists. split; [done|].
    apply np_random_choice_perm.
  - destruct shuffle_columns; [|done].
    destruct Hp as (p' & -> & ->). eexists. split; [done|].
    apply np_random_choice_perm.
  - by exists (Shuffler.mk shuffle_rows shuffle_columns q p true), g', Y.
Qed.

Lemma shuffler_round_trip_witness :
  let X := mkMatrix (Arr2 3 2 [[1; 2]; [3; 4]; [5; 6]])
             [10; 11; 12]%nat [20; 21]%nat in
  ∃ self g Y,
    @Shuffler.fit rotation_random _ _
      (@Shuffler.init rotation_random true true None None 1 0%nat).1 X
      (@Shuffler.init rotation_random true true None None 1 0%nat).2
    = Ok (self, g) ∧
    Shuffler.transform self X true = Ok Y ∧
    Shuffler.reverse_transform self Y true = Ok X.
Proof.
  apply (@shuffler_round_trip rotation_random).
  split; [|reflexivity]. split; [reflexivity|]. repeat constructor.
Defined.

(** Rows and columns both shuffled, on the reference generator. *)
Example shuffler_run :
  let X := mkMatrix (Arr2 3 2 [[1; 2]; [3; 4]; [5; 6]])
             [10; 11; 12]%nat [20; 21]%nat in
  let sg := @Shuffler.init rotation_random true true None None 1 0%nat in
  (do fitted <- Shuffler.fit sg.1 X sg.2;
   Shuffler.transform fitted.1 X true)
  = Ok (mkMatrix (Arr2 3 2 [[3; 4]; [5; 6]; [1; 2]])
          [11; 12; 10]%nat [20; 21]%nat).
Proof. vm_compute. reflexivity. Qed.

(** C5 (as amended): two [Shuffler] instances constructed with the same
    seed and flags, each fitted before anything else touches the
    process-wide generator after its own construction, on matrices of one
    shape, end up with identical row and column permutations, whatever
    state the generator was in before either construction. *)
Theorem shuffler_deterministic `{Random} {A L A' L' : Type}
    (shuffle_rows shuffle_columns : bool) (seed : Z) (g0 g0' : rng)
    (X : Matrix A L) (X' : Matrix A' L') (r c : nat) :
  shape (data X) = [r; c] → shape (data X') = [r; c] →
  ∃ self g,
    Shuffler.fit
      (Shuffler.init shuffle_rows shuffle_columns None None seed g0).1 X
      (Shuffler.init shuffle_rows shuffle_columns None None seed g0).2
    = Ok (self, g) ∧
    Shuffler.fit
      (Shuffler.init shuffle_rows shuffle_columns None None seed g0').1 X'
      (Shuffler.init shuffle_rows shuffle_columns None None seed g0').2
    = Ok (self, g).
Proof.
  intros Hsh Hsh'. cbn [Shuffler.init fst snd].
  unfold Shuffler.fit, shape_at. rewrite Hsh, Hsh'. simpl.
  destruct shuffle_rows, shuffle_columns; simpl;
    repeat (destruct (get_shuffle_indices _ _ _) as [? ?]; simpl);
    eauto.
Qed.

Lemma shuffler_deterministic_witness :
  ∃ self g,
    @Shuffler.fit rotation_random _ _
      (@Shuffler.init rotation_random true true None None 5 0%nat).1
      (mkMatrix (Arr2 2 2 [[1; 2]; [3; 4]]) [10; 11]%nat [20; 21]%nat)
      (@Shuffler.init rotation_random true true None None 5 0%nat).2
    = Ok (self, g) ∧
    @Shuffler.fit rotation_random _ _
      (@Shuffler.init rotation_random true true None None 5 7%nat).1
      (mkMatrix (Arr2 2 2 [[5; 6]; [7; 8]]) [30; 31]%nat [40; 41]%nat)
      (@Shuffler.init rotation_random true true None None 5 7%nat).2
    = Ok (self, g).
Proof.
  apply (@shuffler_deterministic rotation_random _ _ _ _ true true 5
           0%nat 7%nat _ _ 2%nat 2%nat); reflexivity.
Defined.

(** C5 (as stated) fails: both instances are constructed with seed 0, and
    only then each is fitted on the same matrix.  The second [fit] draws
    from the generator where the first one left it, so the two row
    permutations differ. *)
Lemma shuffler_interleaved_differ :
  let X := mkMatrix (Arr2 3 1 [[1]; [2]; [3]]) [10; 11; 12]%nat [20]%nat in
  let a := @Shuffler.init rotation_random true false None None 0 0%nat in
  let b := @Shuffler.init rotation_random true false None None 0 a.2 in
  ∃ a' b' ga gb,
    Shuffler.fit a.1 X b.2 = Ok (a', ga) ∧
    Shuffler.fit b.1 X ga = Ok (b', gb) ∧
    Shuffler.row_indices_ a' = Some [0; 1; 2]%nat ∧
    Shuffler.row_indices_ b' = Some [1; 2; 0]%nat ∧
    Shuffler.row_indices_ a' ≠ Shuffler.row_indices_ b'.
Proof.
  simpl. eexists _, _, _, _.
  split; [vm_compute; reflexivity|].
  split; [vm_compute; reflexivity|].
  simpl. repeat split. discriminate.
Qed.

(** ** Shuffler: the fitted-state check *)

Lemma mapR_raise {A B} (f : A → result B) l e :
  mapR f l = Raise e → ∃ x, x ∈ l ∧ f x = Raise e.
Proof.
  induction l as [|x l IH]; simpl; [done|].
  destruct (f x) as [y|e'] eqn:Hfx; simpl.
  - destruct (mapR f l) as [ys|e'] eqn:Hm; simpl; [done|].
    intros [= ->]. destruct (IH eq_refl) as (x' & Hin & Hx').
    exists x'. split; [by right|done].
  - intros [= ->]. exists x. split; [by left|done].
Qed.

Lemma take_items_raise {A} (l : list A) idx e :
  take_items l idx = Raise e → e = IndexError.
Proof.
  intros (i & _ & Hi)%mapR_raise. destruct (l !! i); congruence.
Qed.

Lemma reorder_rows_raise {A L} (M : Matrix A L) idx e :
  Shuffler.reorder_rows M idx = Raise e → e = IndexError.
Proof.
  unfold Shuffler.reorder_rows, take_rows.
  destruct (data M) as [x|v|r c rows]; simpl.
  - congruence.
  - destruct (take_items v idx) eqn:Hv; simpl.
    + destruct (take_items (rowlabels M) idx) eqn:Hl; simpl; [done|].
      intros [= <-]. by eapply take_items_raise.
    + intros [= <-]. by eapply take_items_raise.
  - destruct (take_items rows idx) eqn:Hv; simpl.
    + destruct (take_items (rowlabels M) idx) eqn:Hl; simpl; [done|].
      intros [= <-]. by eapply take_items_raise.
    + intros [= <-]. by eapply take_items_raise.
Qed.

Lemma reorder_columns_raise {A L} (M : Matrix A L) idx e :
  Shuffler.reorder_columns M idx = Raise e → e = IndexError.
Proof.
  unfold Shuffler.reorder_columns, take_columns.
  destruct (data M) as [x|v|r c rows]; simpl; try congruence.
  destruct (forallb _ idx); simpl; [|congruence].
  destruct (mapR _ rows) eqn:Hv; simpl.
  - destruct (take_items (columnlabels M) idx) eqn:Hl; simpl; [done|].
    intros [= <-]. by eapply take_items_raise.
  - intros [= <-]. apply mapR_raise in Hv as (row & _ & Hrow).
    by eapply take_items_raise.
Qed.

(** C10: [transform] on an instance that was never fitted raises the
    unfitted error; [reverse_transform] on the same instance does not (the
    only exception it can raise is an index error), and with both shuffle
    flags off it returns the matrix unchanged. *)
Theorem reverse_transform_unchecked `{Random} {A L : Type}
    (shuffle_rows shuffle_columns : bool)
    (row_indices column_indices : option (list nat)) (seed : Z) (g0 : rng)
    (X : Matrix A L) (copy : bool) :
  Shuffler.transform
    (Shuffler.init shuffle_rows shuffle_columns row_indices column_indices
       seed g0).1 X copy
  = Raise Shuffler.unfitted_error ∧
  Shuffler.reverse_transform
    (Shuffler.init shuffle_rows shuffle_columns row_indices column_indices
       seed g0).1 X copy
  ≠ Raise Shuffler.unfitted_error ∧
  Shuffler.reverse_transform
    (Shuffler.init false false row_indices column_indices seed g0).1 X copy
  = Ok X.
Proof.
  split; [done|]. split; [|done].
  unfold Shuffler.reverse_transform. cbn [Shuffler.init fst].
  cbn [Shuffler.shuffle_rows_ Shuffler.shuffle_columns_
       Shuffler.row_indices_ Shuffler.column_indices_].
  intros Hraise.
  assert (He : Shuffler.unfitted_error = IndexError); [|done].
  destruct shuffle_rows.
  - destruct (Shuffler.reorder_rows X _) as [X1|e] eqn:Hr; cbn [bind] in Hraise.
    + destruct shuffle_columns.
      * destruct (Shuffler.reorder_columns X1 _) as [X2|e] eqn:Hc;
          cbn [bind] in Hraise; [done|].
        injection Hraise as ->. by eapply reorder_columns_raise.
      * done.
    + injection Hraise as ->. by eapply reorder_rows_raise.
  - cbn [bind] in Hraise. destruct shuffle_columns; [|done].
    destruct (Shuffler.reorder_columns X _) as [X2|e] eqn:Hc;
      cbn [bind] in Hraise; [done|].
    injection Hraise as ->. by eapply reorder_columns_raise.
Qed.

(** ** Further properties of [Bin] *)









Section BinWider.
Context `{Percentile}.
Variable bin_start : Z.


End BinWider.


(** ** Further properties of [Shuffler] *)

Lemma lookup_all {A} (l : list A) :
  map (λ i, l !! i) (seq 0 (length l)) = map Some l.
Proof.
  apply list_eq. intros i. rewrite !list_lookup_fmap.
  destruct (decide (i < length l)%nat) as [Hi|Hi].
  - rewrite lookup_seq_lt by done. simpl.
    destruct (lookup_lt_is_Some_2 l i Hi) as [x Hx]. by rewrite Hx.
  - rewrite lookup_seq_ge by lia. simpl.
    by rewrite lookup_ge_None_2 by lia.
Qed.

(** Selecting by a permutation of the positions permutes the items. *)
Lemma take_items_perm {A} (l : list A) (p : list nat) (l' : list A) :
  p ≡ₚ seq 0 (length l) → take_items l p = Ok l' → l' ≡ₚ l.
Proof.
  intros Hp Ht. apply take_items_Forall2 in Ht.
  assert (Hl' : map Some l' = map (λ i, l !! i) p).
  { clear Hp. induction Ht as [|i x p l' Hx _ IH]; simpl; [done|].
    by rewrite Hx, IH. }
  assert (Hperm : Permutation (map Some l') (map Some l)).
  { rewrite Hl', <- lookup_all. by apply Permutation_map. }
  apply Permutation_map_inv in Hperm as (l3 & Heq & Hperm).
  apply (list_fmap_eq_inj Some _) in Heq. subst l3. by symmetry.
Qed.

Lemma concat_perm {A} (ls ls' : list (list A)) :
  ls ≡ₚ ls' → concat ls ≡ₚ concat ls'.
Proof.
  induction 1 as [|l ls ls' _ IH|l1 l2 ls|ls1 ls2 ls3 _ IH1 _ IH2]; simpl.
  - done.
  - by rewrite IH.
  - rewrite !app_assoc. by rewrite (Permutation_app_comm l2 l1).
  - by rewrite IH1.
Qed.

Lemma concat_each_perm {A} (ls ls' : list (list A)) :
  Forall2 Permutation ls ls' → concat ls ≡ₚ concat ls'.
Proof.
  induction 1 as [|l l' ls ls' Hl _ IH]; simpl; [done|]. by rewrite Hl, IH.
Qed.

Lemma take_each_perm {A} (rows : list (list A)) (p : list nat) (c : nat)
    (rows1 : list (list A)) :
  Forall (λ row, length row = c) rows → p ≡ₚ seq 0 c →
  mapR (λ row, take_items row p) rows = Ok rows1 →
  Forall2 Permutation rows1 rows.
Proof.
  intros Hall Hp. revert rows1.
  induction Hall as [|row rows Hrow _ IH]; intros rows1; cbn [mapR].
  - intros [= <-]. constructor.
  - destruct (take_items row p) as [row1|] eqn:Ht; [|done].
    destruct (mapR _ rows) as [rows'|]; [|done].
    cbn [bind]. intros [= <-]. constructor; [|by apply IH].
    eapply take_items_perm; [|done]. by rewrite Hrow.
Qed.

Section ShufflerMore.
Context `{Random} {A L : Type}.
Implicit Types (X : Matrix A L).

Lemma reorder_rows_perm X q r c X1 :
  aligned X → shape (data X) = [r; c] → q ≡ₚ seq 0 r →
  Shuffler.reorder_rows X q = Ok X1 →
  rowlabels X1 ≡ₚ rowlabels X ∧ columnlabels X1 = columnlabels X ∧
  ravel (data X1) ≡ₚ ravel (data X).
Proof.
  destruct X as [[x|v|r' c' rows] rl cl]; intros [Hwf Hsh] Hrc Hq;
    simpl in *; try done.
  injection Hrc as -> ->. injection Hsh as Hr Hc. destruct Hwf as [Hlr _].
  unfold Shuffler.reorder_rows. simpl.
  destruct (take_items rows q) as [rows1|] eqn:Ht; [|done].
  destruct (take_items rl q) as [rl1|] eqn:Htl; [|done].
  cbn [bind]. intros [= <-]. simpl. split; [|split; [done|]].
  - eapply take_items_perm; [|done]. by rewrite <- Hr.
  - apply concat_perm. eapply take_items_perm; [|done]. by rewrite Hlr.
Qed.

Lemma reorder_columns_perm X p r c X1 :
  aligned X → shape (data X) = [r; c] → p ≡ₚ seq 0 c →
  Shuffler.reorder_columns X p = Ok X1 →
  rowlabels X1 = rowlabels X ∧ columnlabels X1 ≡ₚ columnlabels X ∧
  ravel (data X1) ≡ₚ ravel (data X).
Proof.
  destruct X as [[x|v|r' c' rows] rl cl]; intros [Hwf Hsh] Hrc Hp;
    simpl in *; try done.
  injection Hrc as -> ->. injection Hsh as Hr Hc. destruct Hwf as [Hlr Hall].
  unfold Shuffler.reorder_columns. simpl.
  destruct (forallb _ p); [|done].
  destruct (mapR _ rows) as [rows1|] eqn:Ht; [|done].
  destruct (take_items cl p) as [cl1|] eqn:Htl; [|done].
  cbn [bind]. intros [= <-]. simpl. split; [done|]. split.
  - eapply take_items_perm; [|done]. by rewrite <- Hc.
  - apply concat_each_perm. by eapply take_each_perm.
Qed.
End ShufflerMore.

(** Fitting again never reshuffles: once [fit] has succeeded, a second
    [fit], on any matrix and in any state of the generator, draws nothing
    and leaves the instance as it is, explicit index lists included. *)
Theorem shuffler_refit_keeps `{Random} {A L A' L' : Type}
    (shuffle_rows shuffle_columns : bool)
    (row_indices column_indices : option (list nat)) (seed : Z) (g0 g' : rng)
    (X : Matrix A L) (X' : Matrix A' L') (self : Shuffler.t) (g : rng) :
  Shuffler.fit
    (Shuffler.init shuffle_rows shuffle_columns row_indices column_indices
       seed g0).1 X
    (Shuffler.init shuffle_rows shuffle_columns row_indices column_indices
       seed g0).2
  = Ok (self, g) →
  Shuffler.fit self X' g' = Ok (self, g').
Proof.
  cbn [Shuffler.init fst snd]. unfold Shuffler.fit at 1.
  cbn [Shuffler.shuffle_rows_ Shuffler.shuffle_columns_
       Shuffler.row_indices_ Shuffler.column_indices_].
  intros Hfit.
  assert (Hself : ∃ q p, self = Shuffler.mk shuffle_rows shuffle_columns q p
                                  true ∧
                         (shuffle_rows = true → q ≠ None) ∧
                         (shuffle_columns = true → p ≠ None)).
  { destruct shuffle_rows, row_indices as [ri|]; simpl in Hfit;
      try (destruct (shape_at (data X) 0) as [n|]; simpl in Hfit; [|done];
           destruct (get_shuffle_indices n None _) as [q1 g1]; simpl in Hfit);
      destruct shuffle_columns, column_indices as [ci|]; simpl in Hfit;
      try (destruct (shape_at (data X) 1) as [m|]; simpl in Hfit; [|done];
           destruct (get_shuffle_indices m None _) as [p1 g2];
           simpl in Hfit);
      injection Hfit as <- <-; eexists _, _; (split; [reflexivity|]);
      split; congruence. }
  destruct Hself as (q & p & -> & Hq & Hp).
  unfold Shuffler.fit.
  cbn [Shuffler.shuffle_rows_ Shuffler.shuffle_columns_
       Shuffler.row_indices_ Shuffler.column_indices_].
  assert (Hr : shuffle_rows && bool_decide (q = None) = false).
  { destruct shuffle_rows; [|done]. simpl.
    apply bool_decide_eq_false. by apply Hq. }
  assert (Hc : shuffle_columns && bool_decide (p = None) = false).
  { destruct shuffle_columns; [|done]. simpl.
    apply bool_decide_eq_false. by apply Hp. }
  by rewrite Hr, Hc.
Qed.

Lemma shuffler_refit_keeps_witness :
  @Shuffler.fit rotation_random Z nat
    (Shuffler.mk true false (Some [1; 2; 0]%nat) None true)
    (mkMatrix (Arr2 1 1 [[7]]) [1%nat] [2%nat]) 9%nat
  = Ok (Shuffler.mk true false (Some [1; 2; 0]%nat) None true, 9%nat).
Proof.
  apply (@shuffler_refit_keeps rotation_random Z nat Z nat true false None
           None 1 0%nat 9%nat
           (mkMatrix (Arr2 3 1 [[1]; [2]; [3]]) [10; 11; 12]%nat [20]%nat)
           (mkMatrix (Arr2 1 1 [[7]]) [1%nat] [2%nat])
           (Shuffler.mk true false (Some [1; 2; 0]%nat) None true) 2%nat).
  reflexivity.
Defined.

(** Shuffling loses nothing: on a matrix whose labels are aligned with its
    data, a freshly fitted [Shuffler] returns a matrix of the same shape,
    again aligned, whose row labels, column labels and data entries are
    permutations of the input's. *)
Theorem shuffler_transform_permutes `{Random} {A L : Type}
    (shuffle_rows shuffle_columns : bool) (seed : Z) (g0 : rng)
    (copy : bool) (X : Matrix A L) :
  aligned X →
  ∃ self g Y,
    Shuffler_fit_transform
      (Shuffler.init shuffle_rows shuffle_columns None None seed g0).1 X copy
      (Shuffler.init shuffle_rows shuffle_columns None None seed g0).2
    = Ok (self, g, Y) ∧
    aligned Y ∧ shape (data Y) = shape (data X) ∧
    rowlabels Y ≡ₚ rowlabels X ∧ columnlabels Y ≡ₚ columnlabels X ∧
    ravel (data Y) ≡ₚ ravel (data X).
Proof.
  intros Hal. pose proof Hal as [_ Hsh].
  set (r := length (rowlabels X)) in *. set (c := length (columnlabels X)) in *.
  unfold Shuffler_fit_transform. cbn [Shuffler.init fst snd].
  destruct (shuffler_fit_drawn shuffle_rows shuffle_columns X
              (np_random_seed seed) r c Hsh) as (q & p & g' & Hfit & Hq & Hp).
  rewrite Hfit. cbn [bind fst snd].
  unfold Shuffler.transform. simpl.
  assert (Hrows : ∃ X1, (if shuffle_rows
                         then do idx <- Shuffler.indices_of q;
                              Shuffler.reorder_rows X idx
                         else Ok X) = Ok X1 ∧
                        aligned X1 ∧ shape (data X1) = [r; c] ∧
                        rowlabels X1 ≡ₚ rowlabels X ∧
                        columnlabels X1 = columnlabels X ∧
                        ravel (data X1) ≡ₚ ravel (data X)).
  { destruct shuffle_rows; [|by exists X].
    destruct Hq as (q' & -> & ->). simpl.
    pose proof (np_random_choice_perm (np_random_seed seed) r) as Hperm.
    destruct (reorder_rows_inverse X _ r c Hal Hsh Hperm)
      as (X1 & H1 & Hal1 & Hsh1 & _).
    exists X1. split; [done|]. split; [done|]. split; [done|].
    by eapply reorder_rows_perm. }
  destruct Hrows as (X1 & -> & Hal1 & Hsh1 & Hrl1 & Hcl1 & Hd1).
  cbn [bind].
  assert (Hcols : ∃ X2, (if shuffle_columns
                         then do idx <- Shuffler.indices_of p;
                              Shuffler.reorder_columns X1 idx
                         else Ok X1) = Ok X2 ∧
                        aligned X2 ∧ shape (data X2) = [r; c] ∧
                        rowlabels X2 = rowlabels X1 ∧
                        columnlabels X2 ≡ₚ columnlabels X1 ∧
                        ravel (data X2) ≡ₚ ravel (data X1)).
  { destruct shuffle_columns; [|by exists X1].
    destruct Hp as (p' & -> & ->). simpl.
    match goal with
    | |- context [Shuffler.reorder_columns X1 ?idx] =>
        assert (Hperm : idx ≡ₚ seq 0 c) by apply np_random_choice_perm;
        destruct (reorder_columns_inverse X1 idx r c Hal1 Hsh1 Hperm)
          as (X2 & H2 & Hal2 & Hsh2 & _)
    end.
    exists X2. split; [done|]. split; [done|]. split; [done|].
    by eapply reorder_columns_perm. }
  destruct Hcols as (X2 & -> & Hal2 & Hsh2 & Hrl2 & Hcl2 & Hd2).
  cbn [bind]. eexists _, _, X2. split; [done|].
  split; [done|]. split; [congruence|].
  split; [by rewrite Hrl2|]. split; [by rewrite Hcl2, Hcl1|].
  by rewrite Hd2.
Qed.

Lemma shuffler_transform_permutes_witness :
  let X := mkMatrix (Arr2 3 2 [[1; 2]; [3; 4]; [5; 6]])
             [10; 11; 12]%nat [20; 21]%nat in
  ∃ self g Y,
    @Shuffler_fit_transform rotation_random _ _
      (@Shuffler.init rotation_random true true None None 1 0%nat).1 X true
      (@Shuffler.init rotation_random true true None None 1 0%nat).2
    = Ok (self, g, Y) ∧
    aligned Y ∧ shape (data Y) = shape (data X) ∧
    rowlabels Y ≡ₚ rowlabels X ∧ columnlabels Y ≡ₚ columnlabels X ∧
    ravel (data Y) ≡ₚ ravel (data X).
Proof.
  apply (@shuffler_transform_permutes rotation_random).
  split; [|reflexivity]. split; [reflexivity|]. repeat constructor.
Defined.

(** ** PolynomialFeatures: the module's own tests *)

Example poly_x1 :
  @PolynomialFeatures.fit_transform zero_memory exact_product
    (PolynomialFeatures.init 2 false false) x1_binned_exp true
  = Ok (PolynomialFeatures.mk 2 false false (Some 3%nat) (Some 9%nat),
        Numeric (Arr2 4 9
          (map (map Fin)
             [[1; 8; 10; 1; 8; 10; 64; 80; 100];
              [7; 10; 1; 49; 70; 7; 100; 10; 1];
              [5; 1; 1; 25; 5; 5; 1; 1; 1];
              [8; 1; 6; 64; 8; 48; 1; 6; 36]]%Q))).
Proof. vm_compute. reflexivity. Qed.

Example poly_x1_interaction :
  @PolynomialFeatures.fit_transform zero_memory exact_product
    (PolynomialFeatures.init 2 true false) x1_binned_exp true
  = Ok (PolynomialFeatures.mk 2 true false (Some 3%nat) (Some 6%nat),
        Numeric (Arr2 4 6
          (map (map Fin)
             [[1; 8; 10; 8; 10; 80];
              [7; 10; 1; 70; 7; 10];
              [5; 1; 1; 5; 5; 1];
              [8; 1; 6; 8; 48; 6]]%Q))).
Proof. vm_compute. reflexivity. Qed.

(** On the test's one-row string matrix the combinations of degree two
    are joined with the separator (the test itself expects them without
    it). *)
Example poly_x_alpha :
  @PolynomialFeatures.fit_transform zero_memory exact_product
    (PolynomialFeatures.init 2 false true) x_alpha true
  = Ok (PolynomialFeatures.mk 2 false true (Some 3%nat) (Some 10%nat),
        Lexical (Arr2 1 10
          [[""; "a"; "b"; "c"; "a*a"; "a*b"; "a*c"; "b*b"; "b*c"; "c*c"]%string])).
Proof. vm_compute. reflexivity. Qed.

(** ** PolynomialFeatures: the combinations *)

Lemma binom_lt (n k : nat) : (n < k)%nat → binom n k = 0%nat.
Proof.
  revert k. induction n as [|n IH]; intros [|k] Hlt; simpl; try lia.
  rewrite !IH by lia. done.
Qed.

Lemma combinations_length {A} (l : list A) (k : nat) :
  length (combinations l k) = binom (length l) k.
Proof.
  revert k. induction l as [|x l IH]; intros [|k]; simpl; try done.
  by rewrite length_app, length_map, !IH.
Qed.

Lemma cwr_nil {A} (k : nat) :
  combinations_with_replacement (@nil A) (S k) = [].
Proof. reflexivity. Qed.

Lemma cwr_cons {A} (x : A) (l : list A) (k : nat) :
  combinations_with_replacement (x :: l) (S k)
  = map (cons x) (combinations_with_replacement (x :: l) k)
    ++ combinations_with_replacement l (S k).
Proof. reflexivity. Qed.

Lemma cwr_length {A} (l : list A) (k : nat) :
  length (combinations_with_replacement l k)
  = binom (length l + k - 1) k.
Proof.
  revert l. induction k as [|k IHk]; intros l.
  - simpl. by destruct (length l + 0 - 1)%nat.
  - induction l as [|x l IHl].
    + rewrite cwr_nil. simpl. rewrite binom_lt by lia. done.
    + rewrite cwr_cons, length_app, length_map, IHk, IHl. simpl.
      replace (length l + S k - 1)%nat with (length l + k)%nat by lia.
      replace (length l + k - 0)%nat with (length l + k)%nat by lia.
      replace (length l + S k - 0)%nat with (S (length l + k)) by lia.
      done.
Qed.

Lemma combinations_sizes {A} (l : list A) (k : nat) (c : list A) :
  c ∈ combinations l k → length c = k.
Proof.
  revert k c. induction l as [|x l IH]; intros [|k] c; simpl.
  - by intros ->%list_elem_of_singleton.
  - by intros ?%elem_of_nil.
  - by intros ->%list_elem_of_singleton.
  - rewrite elem_of_app, list_elem_of_fmap.
    intros [(c' & -> & Hc')|Hc]; simpl; [f_equal|]; by apply IH.
Qed.

Lemma cwr_sizes {A} (l : list A) (k : nat) (c : list A) :
  c ∈ combinations_with_replacement l k → length c = k.
Proof.
  revert l c. induction k as [|k IHk]; intros l c.
  - simpl. by intros ->%list_elem_of_singleton.
  - induction l as [|x l IHl].
    + rewrite cwr_nil. by intros ?%elem_of_nil.
    + rewrite cwr_cons, elem_of_app, list_elem_of_fmap.
      intros [(c' & -> & Hc')|Hc]; simpl; [f_equal; by eapply IHk|].
      by apply IHl.
Qed.

Lemma combinations_members {A} (l : list A) (k : nat) (c : list A) :
  c ∈ combinations l k → Forall (λ x, x ∈ l) c.
Proof.
  revert k c. induction l as [|x l IH]; intros [|k] c; simpl.
  - by intros ->%list_elem_of_singleton.
  - by intros ?%elem_of_nil.
  - by intros ->%list_elem_of_singleton.
  - rewrite elem_of_app, list_elem_of_fmap.
    intros [(c' & -> & Hc')|Hc].
    + constructor; [left|].
      eapply Forall_impl; [by eapply IH|]. intros; by right.
    + eapply Forall_impl; [by eapply IH|]. intros; by right.
Qed.

Lemma cwr_members {A} (l : list A) (k : nat) (c : list A) :
  c ∈ combinations_with_replacement l k → Forall (λ x, x ∈ l) c.
Proof.
  revert l c. induction k as [|k IHk]; intros l c.
  - simpl. by intros ->%list_elem_of_singleton.
  - induction l as [|x l IHl].
    + rewrite cwr_nil. by intros ?%elem_of_nil.
    + rewrite cwr_cons, elem_of_app, list_elem_of_fmap.
      intros [(c' & -> & Hc')|Hc].
      * constructor; [left|]. by eapply IHk.
      * eapply Forall_impl; [by apply IHl|]. intros; by right.
Qed.

Lemma poly_combinations_length (n : nat) (degree : Z)
    (interaction_only include_bias : bool) :
  length (PolynomialFeatures._combinations n degree interaction_only
            include_bias)
  = sum_list
      (map (λ i, if interaction_only then binom n i
                 else binom (n + i - 1) i)
         (range (if include_bias then 0 else 1)%nat (degree + 1))).
Proof.
  unfold PolynomialFeatures._combinations.
  generalize (range (if include_bias then 0 else 1)%nat (degree + 1)).
  intros sizes. induction sizes as [|i sizes IH]; simpl; [done|].
  rewrite length_app, IH. f_equal.
  destruct interaction_only.
  - by rewrite combinations_length, length_seq.
  - by rewrite cwr_length, length_seq.
Qed.

(** [fit] on a non-empty 2D matrix with [n] columns stores [n] as the
    input width and, as the output width, the number of combinations of
    sizes [start..degree] over [n] features: binomial [n] over [i] per size
    when only interactions are wanted, [n + i - 1] over [i] (selections
    with repetition) otherwise; [start] is 0 with the bias column and 1
    without. *)
Theorem poly_fit_count (degree : Z) (interaction_only include_bias : bool)
    (matrix : dmatrix) (copy : bool) (r n : nat) :
  dshape matrix = [r; n] → (0 < r * n)%nat →
  PolynomialFeatures.fit
    (PolynomialFeatures.init degree interaction_only include_bias) matrix copy
  = Ok (PolynomialFeatures.mk degree interaction_only include_bias (Some n)
          (Some (sum_list
                   (map (λ i, if interaction_only then binom n i
                              else binom (n + i - 1) i)
                      (range (if include_bias then 0 else 1)%nat
                         (degree + 1)))))).
Proof.
  intros Hsh Hsz. unfold PolynomialFeatures.fit, dndim, dsize.
  rewrite Hsh. cbn [length Nat.eqb assert_ bind foldr].
  rewrite Nat.mul_1_r.
  rewrite (proj2 (Nat.ltb_lt _ _) Hsz). cbn [assert_ bind].
  cbn [lookup list_lookup]. cbn [bind PolynomialFeatures.init
    PolynomialFeatures.degree_ PolynomialFeatures.interaction_only_
    PolynomialFeatures.include_bias_].
  by rewrite poly_combinations_length.
Qed.

Lemma poly_fit_count_witness :
  PolynomialFeatures.fit (PolynomialFeatures.init 2 false true)
    x1_binned_exp true
  = Ok (PolynomialFeatures.mk 2 false true (Some 3%nat) (Some 10%nat)).
Proof.
  apply (poly_fit_count 2 false true x1_binned_exp true 4 3).
  - reflexivity.
  - lia.
Defined.

(** ** PolynomialFeatures: the output columns *)

Lemma fill_ok {A} (body : nat → list nat → result (list A))
    (g : nat → list nat → list A) (combs : list (list nat))
    (cols : list (list A)) (i0 : nat) :
  (∀ k c, combs !! k = Some c → body (i0 + k)%nat c = Ok (g (i0 + k)%nat c)) →
  length cols = (i0 + length combs)%nat →
  PolynomialFeatures.fill body cols i0 combs
  = Ok (take i0 cols ++ imap (λ k c, g (i0 + k)%nat c) combs).
Proof.
  revert cols i0. induction combs as [|c combs IH]; intros cols i0 Hb Hlen.
  - simpl in *. rewrite app_nil_r, take_ge by lia. done.
  - cbn [PolynomialFeatures.fill]. simpl in Hlen.
    pose proof (Hb 0%nat c eq_refl) as Hc. rewrite Nat.add_0_r in Hc.
    rewrite Hc. cbn [bind].
    rewrite (proj2 (Nat.ltb_lt _ _)) by lia.
    rewrite (IH (<[i0 := g i0 c]> cols) (S i0)).
    + f_equal. rewrite (take_S_r _ _ (g i0 c)).
      2:{ apply list_lookup_insert_eq. lia. }
      rewrite take_insert_ge by lia. rewrite <- app_assoc. f_equal.
      simpl. rewrite Nat.add_0_r. f_equal.
      apply imap_ext. intros k c' _. simpl. f_equal. lia.
    + intros k c' Hk. replace (S i0 + k)%nat with (i0 + S k)%nat by lia.
      by apply Hb.
    + rewrite length_insert. lia.
Qed.

Lemma take_items_omap {A} (row : list A) (c : list nat) :
  Forall (λ j, j < length row)%nat c →
  take_items row c = Ok (omap (λ j, row !! j) c).
Proof.
  induction 1 as [|j c Hj _ IH]; [done|].
  unfold take_items in *.
  destruct (lookup_lt_is_Some_2 row j Hj) as [x Hx].
  simpl. rewrite Hx. simpl. by rewrite IH.
Qed.

Lemma numeric_column_ok `{Product} (rows : list (list fval)) (n i : nat)
    (c : list nat) :
  Forall (λ row, length row = n) rows → Forall (λ j, j < n)%nat c →
  PolynomialFeatures.numeric_column rows i c
  = Ok (map (λ row, row_product row c) rows).
Proof.
  intros Hrows Hc. unfold PolynomialFeatures.numeric_column.
  rewrite (mapR_ok _ (λ row, omap (λ j, row !! j) c)).
  - cbn [bind]. by rewrite map_map.
  - intros row Hrow. apply take_items_omap.
    rewrite Forall_forall in Hrows. by rewrite (Hrows row Hrow).
Qed.

(** The columns [f c] over the rows, one per item of [cs], read row by
    row. *)
Lemma transpose_columns {A B D} (f : D → A → B) (cs : list D)
    (rows : list A) :
  transpose (length rows) (map (λ c, map (f c) rows) cs)
  = map (λ row, map (λ c, f c row) cs) rows.
Proof.
  induction cs as [|c cs IH]; simpl.
  - induction rows as [|row rows IHr]; simpl; [done|]. by rewrite IHr.
  - rewrite IH. clear IH. induction rows as [|row rows IHr]; simpl; [done|].
    by rewrite IHr.
Qed.

Lemma poly_combinations_bounds (n : nat) (degree : Z) (io ib : bool)
    (c : list nat) :
  c ∈ PolynomialFeatures._combinations n degree io ib →
  Forall (λ j, j < n)%nat c.
Proof.
  unfold PolynomialFeatures._combinations.
  intros Hin. apply list_elem_of_In, in_concat in Hin.
  destruct Hin as (cs & Hcs & Hc). apply in_map_iff in Hcs.
  destruct Hcs as (i & <- & _). apply list_elem_of_In in Hc.
  assert (Hmem : Forall (λ x, x ∈ seq 0 n) c).
  { destruct io; [by eapply combinations_members|by eapply cwr_members]. }
  eapply Forall_impl; [exact Hmem|]. simpl. intros j Hj%elem_of_seq. lia.
Qed.

Lemma poly_fill_const {A} (body : nat → list nat → result (list A))
    (g : list nat → list A) (combs : list (list nat)) (x : list A) :
  (∀ i c, c ∈ combs → body i c = Ok (g c)) →
  PolynomialFeatures.fill body (replicate (length combs) x) 0 combs
  = Ok (map g combs).
Proof.
  intros Hb.
  rewrite (fill_ok body (λ _, g)).
  - rewrite take_0. simpl. f_equal. clear Hb.
    induction combs as [|c combs IH]; [done|].
    simpl. f_equal. exact IH.
  - intros k c Hk. apply Hb. by eapply list_elem_of_lookup_2.
  - by rewrite length_replicate.
Qed.

(** [PolynomialFeatures.transform], numeric branch: after [fit] on a
    numeric matrix with [n] columns, [transform] of a numeric matrix with
    [n] columns and [r'] rows returns the matrix with one column per
    enumerated combination, in the order of the enumeration, whose entry in
    a row is what NumPy's product gives for that row's entries at the
    positions of the combination, in the order of those positions;
    nothing of the uninitialised output buffer remains.  This holds
    whatever the arithmetic of the element type does. *)
Theorem poly_transform_numeric `{Allocation} `{Product} (degree : Z)
    (io ib copy : bool) (r n r' : nat) (rows rows' : list (list fval)) :
  wf (Arr2 r n rows) → (0 < r * n)%nat →
  wf (Arr2 r' n rows') → (0 < r' * n)%nat →
  ∃ self,
    PolynomialFeatures.fit (PolynomialFeatures.init degree io ib)
      (Numeric (Arr2 r n rows)) true = Ok self
    ∧ PolynomialFeatures.transform self (Numeric (Arr2 r' n rows')) copy
      = Ok (Numeric
              (Arr2 r' (length (PolynomialFeatures._combinations n degree
                                  io ib))
                 (map (λ row,
                         map (row_product row)
                           (PolynomialFeatures._combinations n degree io ib))
                    rows'))).
Proof.
  intros [Hr Hrows] Hpos [Hr' Hrows'] Hpos'.
  eexists. split.
  - unfold PolynomialFeatures.fit, dndim, dsize. simpl.
    rewrite (proj2 (Nat.ltb_lt _ _)) by nia. simpl. reflexivity.
  - unfold PolynomialFeatures.transform, dndim, dsize. simpl.
    rewrite (proj2 (Nat.ltb_lt _ _)) by nia. simpl.
    rewrite Nat.eqb_refl. simpl.
    rewrite (poly_fill_const _ (λ c, map (λ row, row_product row c) rows')).
    + simpl. do 3 f_equal. rewrite <- Hr'.
      apply (transpose_columns (λ c row, row_product row c)).
    + intros i c Hc. apply (numeric_column_ok rows' n); [done|].
      by eapply poly_combinations_bounds.
Qed.

Lemma poly_transform_numeric_witness :
  ∃ self,
    PolynomialFeatures.fit (PolynomialFeatures.init 2 true false)
      x1_binned_exp true = Ok self
    ∧ @PolynomialFeatures.transform zero_memory exact_product self
        x1_binned_exp true
      = Ok (Numeric
              (Arr2 4 6
                 (map (map Fin)
                    [[1; 8; 10; 8; 10; 80]; [7; 10; 1; 70; 7; 10];
                     [5; 1; 1; 5; 5; 1]; [8; 1; 6; 8; 48; 6]]%Q))).
Proof.
  destruct (@poly_transform_numeric zero_memory exact_product 2 true false
              true 4 3 4
              (map (map Fin) [[1; 8; 10]; [7; 10; 1]; [5; 1; 1]; [8; 1; 6]]%Q)
              (map (map Fin) [[1; 8; 10]; [7; 10; 1]; [5; 1; 1]; [8; 1; 6]]%Q))
    as (self & Hfit & Htr).
  - split; [reflexivity|]. repeat constructor.
  - simpl. lia.
  - split; [reflexivity|]. repeat constructor.
  - simpl. lia.
  - exists self. split; [exact Hfit|]. unfold x1_binned_exp.
    rewrite Htr. reflexivity.
Defined.

(** ** PolynomialFeatures: the order of the enumeration *)

Lemma combinations_zero {A} (l : list A) : combinations l 0 = [[]].
Proof. by destruct l. Qed.

Lemma combinations_one {A} (l : list A) :
  combinations l 1 = map (λ x, [x]) l.
Proof.
  induction l as [|x l IH]; [done|].
  change (combinations (x :: l) 1)
    with (map (cons x) (combinations l 0) ++ combinations l 1).
  by rewrite combinations_zero, IH.
Qed.

Lemma cwr_one {A} (l : list A) :
  combinations_with_replacement l 1 = map (λ x, [x]) l.
Proof.
  induction l as [|x l IH]; [done|].
  rewrite cwr_cons, IH. done.
Qed.

(** The enumeration starts with the empty combination (if the bias column
    is wanted), goes on with the single features in order, and only then
    lists the combinations of two or more features. *)
Lemma poly_combinations_split (n : nat) (degree : Z) (io ib : bool) :
  ∃ high,
    PolynomialFeatures._combinations n degree io ib
    = (if ib && (0 <=? degree) then [[]] else [])
      ++ (if 1 <=? degree then map (λ j, [j]) (seq 0 n) else []) ++ high
    ∧ Forall (λ c, 2 ≤ length c)%nat high
    ∧ (high ≠ [] → 2 ≤ degree).
Proof.
  unfold PolynomialFeatures._combinations, range.
  set (f := λ i, (if io then combinations else combinations_with_replacement)
                   (seq 0 n) i).
  assert (Hf0 : f 0%nat = [[]]).
  { unfold f. destruct io; [apply combinations_zero|done]. }
  assert (Hf1 : f 1%nat = map (λ j, [j]) (seq 0 n)).
  { unfold f. destruct io; [apply combinations_one|apply cwr_one]. }
  exists (concat (map f (seq 2 (Z.to_nat (degree - 1))))).
  split; [|split].
  - destruct (Z.leb_spec 1 degree) as [H1|H1].
    + rewrite (proj2 (Z.leb_le 0 degree)) by lia. rewrite andb_true_r.
      destruct ib.
      * replace (Z.to_nat (degree + 1 - Z.of_nat 0))
          with (S (S (Z.to_nat (degree - 1)))) by lia.
        simpl. by rewrite Hf0, Hf1.
      * replace (Z.to_nat (degree + 1 - Z.of_nat 1))
          with (S (Z.to_nat (degree - 1))) by lia.
        simpl. by rewrite Hf1.
    + replace (Z.to_nat (degree - 1)) with 0%nat by lia. simpl.
      destruct (Z.leb_spec 0 degree) as [H0|H0].
      * assert (degree = 0) as -> by lia. rewrite andb_true_r.
        destruct ib; simpl; [by rewrite Hf0|done].
      * rewrite andb_false_r.
        replace (Z.to_nat (degree + 1 - Z.of_nat (if ib then 0 else 1)))
          with 0%nat by (destruct ib; lia).
        done.
  - apply Forall_forall. intros c Hc.
    apply list_elem_of_In, in_concat in Hc. destruct Hc as (cs & Hcs & Hc).
    apply in_map_iff in Hcs. destruct Hcs as (i & <- & Hi).
    apply in_seq in Hi. apply list_elem_of_In in Hc.
    assert (length c = i) as ->; [|lia].
    unfold f in Hc. destruct io;
      [by eapply combinations_sizes|by eapply cwr_sizes].
  - intros Hne. destruct (Z.to_nat (degree - 1)) eqn:Hm; [done|lia].
Qed.

(** A combination has at most one feature exactly when it stands before
    position [n_features + int(include_bias)]. *)
Lemma poly_combinations_position (n : nat) (degree : Z) (io ib : bool)
    (i : nat) (c : list nat) :
  PolynomialFeatures._combinations n degree io ib !! i = Some c →
  (length c ≤ 1 ↔ i < n + (if ib then 1 else 0))%nat.
Proof.
  destruct (poly_combinations_split n degree io ib)
    as (high & -> & Hhigh & Hdeg).
  rewrite app_assoc.
  set (low := (if ib && (0 <=? degree) then [[]] else [])
              ++ (if 1 <=? degree then map (λ j, [j]) (seq 0 n) else [])).
  assert (Hlow : Forall (λ c, length c ≤ 1)%nat low).
  { apply Forall_app. split.
    - destruct (ib && _); repeat constructor.
    - destruct (1 <=? degree); [|constructor].
      apply Forall_forall. intros c' (j & -> & _)%list_elem_of_fmap.
      simpl. lia. }
  assert (Hlen : (length low ≤ n + (if ib then 1 else 0))%nat).
  { unfold low. rewrite length_app.
    destruct ib, (0 <=? degree), (1 <=? degree); simpl;
      rewrite ?length_map, ?length_seq; lia. }
  intros Hi. destruct (decide (i < length low)%nat) as [Hlt|Hge].
  - rewrite lookup_app_l in Hi by done.
    apply list_elem_of_lookup_2 in Hi.
    rewrite Forall_forall in Hlow. specialize (Hlow c Hi). lia.
  - rewrite lookup_app_r in Hi by lia.
    apply list_elem_of_lookup_2 in Hi.
    assert (Hne : high ≠ []) by (intros ->; by apply elem_of_nil in Hi).
    specialize (Hdeg Hne).
    rewrite Forall_forall in Hhigh. specialize (Hhigh c Hi).
    assert (length low = n + (if ib then 1 else 0))%nat; [|lia].
    unfold low. rewrite length_app.
    rewrite (proj2 (Z.leb_le 0 degree)), (proj2 (Z.leb_le 1 degree)) by lia.
    rewrite andb_true_r, length_map, length_seq. destruct ib; simpl; lia.
Qed.

Lemma poly_combinations_nonempty (n : nat) (degree : Z) (io ib : bool) :
  (0 < n)%nat → (if ib then 0 else 1) ≤ degree →
  PolynomialFeatures._combinations n degree io ib ≠ [].
Proof.
  intros Hn Hdeg.
  destruct (poly_combinations_split n degree io ib) as (high & -> & _).
  destruct ib.
  - rewrite (proj2 (Z.leb_le 0 degree)) by lia. done.
  - rewrite (proj2 (Z.leb_le 1 degree)) by lia.
    destruct n; [lia|]. done.
Qed.

Lemma poly_combinations_empty (n : nat) (degree : Z) (io ib : bool) :
  degree < (if ib then 0 else 1) →
  PolynomialFeatures._combinations n degree io ib = [].
Proof.
  intros Hdeg. unfold PolynomialFeatures._combinations, range.
  replace (Z.to_nat (degree + 1 - Z.of_nat (if ib then 0 else 1)))
    with 0%nat by (destruct ib; lia).
  done.
Qed.

(** ** PolynomialFeatures: errors of [transform] *)

Lemma poly_fit_ok (degree : Z) (io ib : bool) (matrix : dmatrix)
    (copy : bool) (r n : nat) :
  dshape matrix = [r; n] → (0 < r * n)%nat →
  PolynomialFeatures.fit (PolynomialFeatures.init degree io ib) matrix copy
  = Ok (PolynomialFeatures.mk degree io ib (Some n)
          (Some (length (PolynomialFeatures._combinations n degree io ib)))).
Proof.
  intros Hsh Hsz. unfold PolynomialFeatures.fit, dndim, dsize.
  rewrite Hsh. cbn [length Nat.eqb assert_ bind foldr].
  rewrite Nat.mul_1_r.
  rewrite (proj2 (Nat.ltb_lt _ _) Hsz). reflexivity.
Qed.

(** A matrix whose width differs from the width seen by [fit] is refused
    with the value error, whatever its elements are. *)
Theorem poly_transform_width_mismatch `{Allocation} `{Product}
    (degree : Z)
    (io ib copy : bool) (m m' : dmatrix) (r n r' n' : nat) :
  dshape m = [r; n] → (0 < r * n)%nat →
  dshape m' = [r'; n'] → (0 < r' * n')%nat → n' ≠ n →
  ∃ self,
    PolynomialFeatures.fit (PolynomialFeatures.init degree io ib) m true
    = Ok self
    ∧ PolynomialFeatures.transform self m' copy
      = Raise (ValueError "X shape does not match training shape").
Proof.
  intros Hsh Hsz Hsh' Hsz' Hne. eexists. split.
  - by apply (poly_fit_ok degree io ib m true r n).
  - unfold PolynomialFeatures.transform, dndim, dsize. rewrite Hsh'.
    cbn [length Nat.eqb assert_ bind foldr]. rewrite Nat.mul_1_r.
    rewrite (proj2 (Nat.ltb_lt _ _) Hsz').
    cbn [assert_ bind PolynomialFeatures.attr
         PolynomialFeatures.n_input_features_].
    by rewrite (proj2 (Nat.eqb_neq n' n) Hne).
Qed.

Lemma poly_transform_width_mismatch_witness :
  ∃ self,
    PolynomialFeatures.fit (PolynomialFeatures.init 2 false true)
      x1_binned_exp true = Ok self
    ∧ @PolynomialFeatures.transform zero_memory exact_product self
        (Lexical (Arr2 1 2 [["a"; "b"]%string])) true
      = Raise (ValueError "X shape does not match training shape").
Proof.
  apply (@poly_transform_width_mismatch zero_memory exact_product
           2 false true true
           x1_binned_exp
           (Lexical (Arr2 1 2 [["a"; "b"]%string])) 4 3 1 2).
  - reflexivity.
  - lia.
  - reflexivity.
  - lia.
  - lia.
Defined.

(** A matrix whose elements are neither numbers nor strings: the type
    error is raised inside the loop over the combinations, so it needs one
    combination to be raised at all.  With none ([degree] below the first
    size) the result is the allocated matrix, which has no column. *)
Theorem poly_transform_unsupported `{Allocation} `{Product}
    (degree : Z)
    (io ib copy : bool) (a : ndarray unit) (r n : nat) :
  shape a = [r; n] → (0 < r * n)%nat →
  ∃ self,
    PolynomialFeatures.fit (PolynomialFeatures.init degree io ib) (Other a)
      true = Ok self
    ∧ PolynomialFeatures.transform self (Other a) copy
      = if (if ib then 0 else 1) <=? degree
        then Raise (TypeError "Unsupported matrix type")
        else Ok (Other (Arr2 r 0 (replicate r []))).
Proof.
  intros Hsh Hsz. eexists. split.
  - by apply (poly_fit_ok degree io ib (Other a) true r n).
  - unfold PolynomialFeatures.transform, dndim, dsize.
    cbn [dshape]. rewrite Hsh.
    cbn [length Nat.eqb assert_ bind foldr]. rewrite Nat.mul_1_r.
    rewrite (proj2 (Nat.ltb_lt _ _) Hsz).
    cbn [assert_ bind PolynomialFeatures.attr
         PolynomialFeatures.n_input_features_
         PolynomialFeatures.n_output_features_
         PolynomialFeatures.degree_ PolynomialFeatures.interaction_only_
         PolynomialFeatures.include_bias_].
    rewrite Nat.eqb_refl. cbn [negb].
    destruct (Z.leb_spec (if ib then 0 else 1) degree) as [Hle|Hlt].
    + pose proof (poly_combinations_nonempty n degree io ib) as Hne.
      destruct (PolynomialFeatures._combinations n degree io ib)
        as [|c cs]; [|done].
      exfalso. apply Hne; first [nia|done].
    + rewrite (poly_combinations_empty n degree io ib Hlt). simpl.
      do 3 f_equal.
Qed.

Lemma poly_transform_unsupported_witness :
  ∃ self,
    PolynomialFeatures.fit (PolynomialFeatures.init 0 false false)
      (Other (Arr2 2 1 [[()]; [()]])) true = Ok self
    ∧ @PolynomialFeatures.transform zero_memory exact_product self
        (Other (Arr2 2 1 [[()]; [()]])) true
      = Ok (Other (Arr2 2 0 [[]; []])).
Proof.
  apply (@poly_transform_unsupported zero_memory exact_product
           0 false false true
           (Arr2 2 1 [[()]; [()]]) 2 1).
  - reflexivity.
  - lia.
Defined.

(** ** PolynomialFeatures: matrices of strings *)

Lemma join_chars (s : string) :
  String.concat EmptyString
    (map (λ a, String a EmptyString) (String.list_ascii_of_string s)) = s.
Proof.
  induction s as [|a s IH]; [done|].
  simpl in *. destruct (String.list_ascii_of_string s) as [|b l] eqn:Hl.
  - destruct s; [done|discriminate].
  - simpl in *. by rewrite IH.
Qed.

Lemma mapR_as_str (l : list string) : mapR as_str (map PyStr l) = Ok l.
Proof. induction l as [|s l IH]; simpl; [done|]. by rewrite IH. Qed.

Lemma omap_lookup_length {A} (row : list A) (c : list nat) :
  Forall (λ j, j < length row)%nat c →
  length (omap (λ j, row !! j) c) = length c.
Proof.
  induction 1 as [|j c Hj _ IH]; [done|].
  destruct (lookup_lt_is_Some_2 row j Hj) as [x Hx].
  simpl. rewrite Hx. simpl. f_equal. exact IH.
Qed.

Lemma lexical_sub_ok (rows : list (list string)) (n : nat) (c : list nat) :
  Forall (λ row, length row = n) rows → Forall (λ j, j < n)%nat c →
  mapR (λ row, take_items row c) rows
  = Ok (map (λ row, omap (λ j, row !! j) c) rows).
Proof.
  intros Hrows Hc. apply mapR_ok. intros row Hrow.
  apply take_items_omap. rewrite Forall_forall in Hrows.
  by rewrite (Hrows row Hrow).
Qed.

(** One row: the column of a combination holds its strings joined with
    [*]. *)
Lemma lexical_column_row (n : nat) (ib : bool) (row : list string)
    (i : nat) (c : list nat) :
  length row = n → Forall (λ j, j < n)%nat c →
  (length c ≤ 1 ↔ i < n + (if ib then 1 else 0))%nat →
  PolynomialFeatures.lexical_column 1 n ib [row] i c
  = Ok [String.concat "*" (omap (λ j, row !! j) c)].
Proof.
  intros Hrow Hc Hpos. unfold PolynomialFeatures.lexical_column.
  rewrite (lexical_sub_ok [row] n c) by (by repeat constructor).
  cbn [bind map].
  assert (Hlen : length (omap (λ j, row !! j) c) = length c).
  { apply omap_lookup_length. by rewrite Hrow. }
  destruct (omap (λ j, row !! j) c) as [|s [|s' sel]] eqn:Hsel.
  - destruct c; [|done]. done.
  - destruct c as [|j [|j' c]]; try done.
    assert (Hi : (i < n + (if ib then 1 else 0))%nat)
      by (apply Hpos; simpl; lia).
    rewrite (proj2 (Nat.leb_gt _ _) Hi).
    simpl. by rewrite join_chars.
  - destruct c as [|j [|j' c]]; try done.
    assert (Hi : (n + (if ib then 1 else 0) ≤ i)%nat).
    { destruct (decide (i < n + (if ib then 1 else 0))%nat) as [Hlt|]; [|lia].
      apply Hpos in Hlt. simpl in Hlt. lia. }
    rewrite (proj2 (Nat.leb_le _ _) Hi).
    cbn [length squeeze_tolist concat app join].
    rewrite app_nil_r, mapR_as_str. done.
Qed.

(** Two rows or more: a combination of one feature gives the strings of
    that column over all the rows, joined; any other combination gives a
    list of lists, which [join] refuses. *)
Lemma lexical_column_rows (r n : nat) (ib : bool)
    (rows : list (list string)) (i : nat) (c : list nat) :
  (2 ≤ r)%nat → length rows = r → Forall (λ row, length row = n) rows →
  Forall (λ j, j < n)%nat c →
  PolynomialFeatures.lexical_column r n ib rows i c
  = match c with
    | [j] =>
        Ok (replicate r
              (String.concat
                 (if (n + (if ib then 1 else 0) <=? i)%nat then "*"
                  else EmptyString)
                 (concat (map (λ row, omap (λ j, row !! j) c) rows))))
    | _ => Raise (TypeError "sequence item: expected string, list found")
    end.
Proof.
  intros Hr Hlen Hrows Hc. unfold PolynomialFeatures.lexical_column.
  rewrite (lexical_sub_ok rows n c) by done. cbn [bind].
  destruct r as [|[|r]]; [lia|lia|].
  destruct rows as [|row1 rows]; [done|].
  destruct c as [|j [|j' c]]; cbn [length squeeze_tolist].
  - done.
  - rewrite <- Hlen. cbn [join]. by rewrite mapR_as_str.
  - done.
Qed.

Lemma poly_fill_at {A} (body : nat → list nat → result (list A))
    (g : list nat → list A) (combs : list (list nat)) (x : list A) :
  (∀ i c, combs !! i = Some c → body i c = Ok (g c)) →
  PolynomialFeatures.fill body (replicate (length combs) x) 0 combs
  = Ok (map g combs).
Proof.
  intros Hb.
  rewrite (fill_ok body (λ _, g)).
  - rewrite take_0. simpl. f_equal. clear Hb.
    induction combs as [|c combs IH]; [done|].
    simpl. f_equal. exact IH.
  - intros k c Hk. by apply Hb.
  - by rewrite length_replicate.
Qed.

Lemma fill_raise {A} (body : nat → list nat → result (list A)) (e : exn)
    (combs : list (list nat)) (cols : list (list A)) (i0 : nat) :
  length cols = (i0 + length combs)%nat →
  (∀ k c, combs !! k = Some c →
          body (i0 + k)%nat c = Raise e ∨ is_ok (body (i0 + k)%nat c) = true) →
  (∃ k c, combs !! k = Some c ∧ body (i0 + k)%nat c = Raise e) →
  PolynomialFeatures.fill body cols i0 combs = Raise e.
Proof.
  revert cols i0. induction combs as [|c combs IH]; intros cols i0 Hlen Hb Hex.
  - destruct Hex as (k & c & Hk & _). done.
  - cbn [PolynomialFeatures.fill]. simpl in Hlen.
    destruct (Hb 0%nat c eq_refl) as [Hr|Hok]; rewrite Nat.add_0_r in *.
    + by rewrite Hr.
    + destruct (body i0 c) as [col|e'] eqn:Hbody; [|done]. cbn [bind].
      rewrite (proj2 (Nat.ltb_lt _ _)) by lia.
      apply IH.
      * rewrite length_insert. lia.
      * intros k c' Hk. replace (S i0 + k)%nat with (i0 + S k)%nat by lia.
        by apply Hb.
      * destruct Hex as ([|k] & c' & Hk & Hr).
        -- simpl in Hk. injection Hk as <-.
           rewrite Nat.add_0_r in Hr. congruence.
        -- exists k, c'. split; [done|].
           by replace (S i0 + k)%nat with (i0 + S k)%nat by lia.
Qed.

(** A matrix of strings with one row, after [fit] on a matrix of the same
    width: each output entry is the strings of its combination joined with
    [*] (the empty string for the bias column, the string itself for a
    single feature), in the order of the enumeration. *)
Theorem poly_transform_lexical_row `{Allocation} `{Product}
    (degree : Z)
    (io ib copy : bool) (m : dmatrix) (r n : nat) (row : list string) :
  dshape m = [r; n] → (0 < r * n)%nat → length row = n →
  ∃ self,
    PolynomialFeatures.fit (PolynomialFeatures.init degree io ib) m true
    = Ok self
    ∧ PolynomialFeatures.transform self (Lexical (Arr2 1 n [row])) copy
      = Ok (Lexical
              (Arr2 1
                 (length (PolynomialFeatures._combinations n degree io ib))
                 [map (λ c, String.concat "*" (omap (λ j, row !! j) c))
                    (PolynomialFeatures._combinations n degree io ib)])).
Proof.
  intros Hsh Hsz Hrow. eexists. split.
  - by apply (poly_fit_ok degree io ib m true r n).
  - unfold PolynomialFeatures.transform, dndim, dsize.
    cbn [dshape shape length Nat.eqb assert_ bind foldr].
    rewrite Nat.mul_1_r, Nat.mul_1_l.
    rewrite (proj2 (Nat.ltb_lt 0 n)) by nia.
    cbn [assert_ bind PolynomialFeatures.attr
         PolynomialFeatures.n_input_features_
         PolynomialFeatures.n_output_features_
         PolynomialFeatures.degree_ PolynomialFeatures.interaction_only_
         PolynomialFeatures.include_bias_ PolynomialFeatures.rows_of].
    rewrite Nat.eqb_refl. cbn [negb].
    rewrite (poly_fill_at _
               (λ c, [String.concat "*" (omap (λ j, row !! j) c)])).
    + cbn [bind]. do 3 f_equal.
      apply (transpose_columns
               (λ c row, String.concat "*" (omap (λ j, row !! j) c))
               _ [row]).
    + intros i c Hi. apply lexical_column_row; [done| |].
      * eapply poly_combinations_bounds. by eapply list_elem_of_lookup_2.
      * by eapply poly_combinations_position.
Qed.

Lemma poly_transform_lexical_row_witness :
  ∃ self,
    PolynomialFeatures.fit (PolynomialFeatures.init 2 false true) x_alpha
      true = Ok self
    ∧ @PolynomialFeatures.transform zero_memory exact_product self x_alpha true
      = Ok (Lexical
              (Arr2 1 10
                 [[""; "a"; "b"; "c"; "a*a"; "a*b"; "a*c"; "b*b"; "b*c";
                   "c*c"]%string])).
Proof.
  apply (@poly_transform_lexical_row zero_memory exact_product
           2 false true true x_alpha
           1 3 ["a"; "b"; "c"]%string).
  - reflexivity.
  - lia.
  - reflexivity.
Defined.

Lemma poly_transform_lexical_unfold `{Allocation} `{Product}
    (degree : Z)
    (io ib copy : bool) (r n : nat) (rows : list (list string)) :
  (0 < r * n)%nat →
  PolynomialFeatures.transform
    (PolynomialFeatures.mk degree io ib (Some n)
       (Some (length (PolynomialFeatures._combinations n degree io ib))))
    (Lexical (Arr2 r n rows)) copy
  = do cols <- PolynomialFeatures.fill
                 (PolynomialFeatures.lexical_column r n ib rows)
                 (replicate
                    (length (PolynomialFeatures._combinations n degree io ib))
                    (replicate r np_empty_str))
                 0 (PolynomialFeatures._combinations n degree io ib);
    Ok (Lexical
          (Arr2 r (length (PolynomialFeatures._combinations n degree io ib))
             (transpose r cols))).
Proof.
  intros Hsz. unfold PolynomialFeatures.transform, dndim, dsize.
  cbn [dshape shape length Nat.eqb assert_ bind foldr].
  rewrite Nat.mul_1_r.
  rewrite (proj2 (Nat.ltb_lt _ _) Hsz).
  cbn [assert_ bind PolynomialFeatures.attr
       PolynomialFeatures.n_input_features_
       PolynomialFeatures.n_output_features_
       PolynomialFeatures.degree_ PolynomialFeatures.interaction_only_
       PolynomialFeatures.include_bias_ PolynomialFeatures.rows_of].
  by rewrite Nat.eqb_refl.
Qed.

(** A matrix of strings with two rows or more cannot be expanded as soon
    as the enumeration holds a combination that is not a single feature
    (the bias column, or a product of two features): [matrix[:, c]] is then
    a list of rows, which [join] refuses with a type error. *)
Theorem poly_transform_lexical_rows_raise `{Allocation} `{Product}
    (degree : Z)
    (io ib copy : bool) (r n : nat) (rows : list (list string)) :
  (2 ≤ r)%nat → (0 < n)%nat → wf (Arr2 r n rows) →
  (∃ c, c ∈ PolynomialFeatures._combinations n degree io ib
        ∧ length c ≠ 1%nat) →
  ∃ self,
    PolynomialFeatures.fit (PolynomialFeatures.init degree io ib)
      (Lexical (Arr2 r n rows)) true = Ok self
    ∧ PolynomialFeatures.transform self (Lexical (Arr2 r n rows)) copy
      = Raise (TypeError "sequence item: expected string, list found").
Proof.
  intros Hr Hn [Hlen Hrows] (c & Hc & Hsize). eexists. split.
  - apply (poly_fit_ok degree io ib _ true r n); [done|nia].
  - rewrite poly_transform_lexical_unfold by nia.
    rewrite (fill_raise _
               (TypeError "sequence item: expected string, list found"));
      [done|by rewrite length_replicate| |].
    + intros k c' Hk. simpl.
      rewrite (lexical_column_rows r n ib rows k c') by
        (try done; eapply poly_combinations_bounds;
         by eapply list_elem_of_lookup_2).
      destruct c' as [|j [|j' c']]; auto.
    + apply list_elem_of_lookup_1 in Hc as [k Hk]. exists k, c.
      split; [done|]. simpl.
      rewrite (lexical_column_rows r n ib rows k c) by
        (try done; eapply poly_combinations_bounds;
         by eapply list_elem_of_lookup_2).
      destruct c as [|j [|j' c]]; done.
Qed.

Lemma poly_transform_lexical_rows_raise_witness :
  ∃ self,
    PolynomialFeatures.fit (PolynomialFeatures.init 2 false true)
      (Lexical (Arr2 2 2 [["a"; "b"]; ["c"; "d"]]%string)) true = Ok self
    ∧ @PolynomialFeatures.transform zero_memory exact_product self
        (Lexical (Arr2 2 2 [["a"; "b"]; ["c"; "d"]]%string)) true
      = Raise (TypeError "sequence item: expected string, list found").
Proof.
  apply (@poly_transform_lexical_rows_raise zero_memory exact_product
           2 false true true
           2 2 [["a"; "b"]; ["c"; "d"]]%string).
  - lia.
  - lia.
  - split; [reflexivity|]. repeat constructor.
  - exists []. split; [|done]. vm_compute. left.
Defined.




(** ** Standardize: fitting *)

Lemma load_ok (h : heap) (l : loc) (m : tarray) :
  h !! l = Some m → load l h = (Ok m, h).
Proof. intros Hl. unfold load. by rewrite Hl. Qed.

Lemma reduce_keepdims_ok (f : list Q → Q) (a : ndarray Q) (axis : nat) :
  (axis < ndim a)%nat →
  reduce_keepdims f a axis = Ok (keepdims a axis (map f (slices a axis))).
Proof.
  destruct a as [x|v|r c rows], axis as [|[|axis]]; simpl; try lia; try done.
  intros _. by rewrite map_map.
Qed.


Lemma dims_ok_axis (a : ndarray Q) (axis : Z) :
  dims_ok a axis = true →
  (Z.to_nat axis < ndim a)%nat ∧ (0 < size a)%nat ∧ 0 ≤ axis.
Proof.
  unfold dims_ok. rewrite !andb_true_iff.
  intros [[_ Hs%Nat.ltb_lt] [H0%Z.leb_le Hax%Z.ltb_lt]]. lia.
Qed.

Section StandardizeFit.
  Context `{Sqrt} `{Util}.

Lemma get_mean_and_std_run (h : heap) (l : loc) (m : tarray) (axis : Z) :
  h !! l = Some m → dims_ok (arr m) axis = true →
  get_mean_and_std l axis h
  = (if existsb (λ x, Qlt_bool (Qabs x) NEARZERO)
          (ravel (keepdims (arr m) (Z.to_nat axis)
                    (map std_list (slices (arr m) (Z.to_nat axis)))))
     then Raise (Exception
                   "Standard deviation calculation has near zero values.")
     else Ok (length h, S (length h)),
     h ++ [mkT (dtype_of m)
             (keepdims (arr m) (Z.to_nat axis)
                (map mean_list (slices (arr m) (Z.to_nat axis))));
           mkT (dtype_of m)
             (keepdims (arr m) (Z.to_nat axis)
                (map std_list (slices (arr m) (Z.to_nat axis))))]).
Proof.
  intros Hl Hok. pose proof (dims_ok_axis _ _ Hok) as (Hax & _ & _).
  unfold dims_ok in Hok. rewrite !andb_true_iff in Hok.
  destruct Hok as [[Hn Hs] [Ha0 Ha1]].
  unfold get_mean_and_std, bindS, liftS. rewrite (load_ok h l m Hl).
  rewrite Hn, Hs. cbn [assert_]. rewrite Ha0, Ha1. cbn [andb assert_].
  rewrite !reduce_keepdims_ok by done.
  unfold new. rewrite <- app_assoc. cbn [app].
  rewrite length_app. cbn [length]. rewrite Nat.add_1_r.
  by destruct (existsb _ _).
Qed.

Lemma get_mean_and_std_assert (h : heap) (l : loc) (m : tarray) (axis : Z) :
  h !! l = Some m → dims_ok (arr m) axis = false →
  get_mean_and_std l axis h = (Raise AssertionError, h).
Proof.
  intros Hl Hok. unfold get_mean_and_std, bindS, liftS.
  rewrite (load_ok h l m Hl). unfold dims_ok in Hok.
  destruct (0 <? ndim (arr m))%nat; [|done].
  destruct (0 <? size (arr m))%nat; [|done].
  simpl in Hok. by rewrite Hok.
Qed.

(** [fit] raises an assertion error exactly when the matrix has rank 0, has
    no element, or has no axis [axis] (the constructor has refused a
    negative one); the store is then as it was.  Nothing else in [fit] can
    raise that error. *)
Theorem standardize_fit_asserts (axis : Z) (self : Standardize.t)
    (h : heap) (l : loc) (m : tarray) :
  Standardize.init axis = Ok self → h !! l = Some m →
  ((Standardize.fit self l h).1 = Raise AssertionError
   ↔ (ndim (arr m) = 0%nat ∨ size (arr m) = 0%nat
      ∨ Z.of_nat (ndim (arr m)) ≤ axis))
  ∧ ((Standardize.fit self l h).1 = Raise AssertionError →
     (Standardize.fit self l h).2 = h).
Proof.
  intros Hinit Hl. unfold Standardize.init in Hinit.
  destruct (Z.leb_spec 0 axis) as [Hge0|]; [|done].
  simpl in Hinit. injection Hinit as <-.
  unfold Standardize.fit, bindS. cbn [Standardize.axis_].
  destruct (dims_ok (arr m) axis) eqn:Hok.
  - rewrite (get_mean_and_std_run h l m axis Hl Hok).
    pose proof (dims_ok_axis _ _ Hok) as (Hax & Hsz & _).
    destruct (existsb _ _); simpl; (split; [split|]; [done|lia|done]).
  - rewrite (get_mean_and_std_assert h l m axis Hl Hok). simpl.
    split; [|done]. split; [|done]. intros _.
    unfold dims_ok in Hok. rewrite !andb_false_iff in Hok.
    destruct Hok as [[Hn%Nat.ltb_ge|Hs%Nat.ltb_ge]|[Hneg%Z.leb_gt|Ha%Z.ltb_ge]];
      lia.
Qed.


End StandardizeFit.

Lemma standardize_fit_asserts_witness :
  (@Standardize.fit sqrt_micro nearzero_1e8 (Standardize.mk 2 None None)
     0%nat [x1_std]).1 = Raise AssertionError.
Proof.
  apply (@standardize_fit_asserts sqrt_micro nearzero_1e8 2
           (Standardize.mk 2 None None) [x1_std] 0%nat x1_std);
    [reflexivity|reflexivity|].
  right. right. simpl. lia.
Defined.


(** ** Standardize: slices without spread *)





Section StandardizeConstant.
  Context `{Sqrt} `{Util}.
  Hypothesis NEARZERO_pos : (0 < NEARZERO)%Q.
  Hypothesis np_sqrt_0 : ∀ q, (q == 0)%Q → (np_sqrt q == 0)%Q.




End StandardizeConstant.



(** ** Standardize: the store *)

Lemma bindS_liftS {A B} (r : result A) (k : A → St B) (h : heap) :
  bindS (liftS r) k h
  = match r with Ok a => k a h | Raise e => (Raise e, h) end.
Proof. unfold bindS, liftS. by destruct r. Qed.

Lemma bindS_load {B} (l : loc) (k : tarray → St B) (h : heap) :
  bindS (load l) k h
  = match h !! l with
    | Some x => k x h
    | None => (Raise (Exception "no such object"), h)
    end.
Proof. unfold bindS, load. by destruct (h !! l). Qed.

Lemma binop_run (f : Q → Q → Q) (a b : loc) (h : heap) (x y : tarray)
    (z : ndarray Q) :
  h !! a = Some x → h !! b = Some y →
  broadcast_op f (arr x) (arr y) = Ok z →
  binop f a b h
  = (Ok (length h), h ++ [mkT (result_type (dtype_of x) (dtype_of y)) z]).
Proof.
  intros Ha Hb Hz. unfold binop, bindS, liftS.
  by rewrite (load_ok h a x Ha), (load_ok h b y Hb), Hz.
Qed.

Lemma inplace_run (f : Q → Q → Q) (a b : loc) (h : heap) (x y : tarray)
    (z : ndarray Q) :
  h !! a = Some x → h !! b = Some y →
  broadcast_op f (arr x) (arr y) = Ok z → shape z = shape (arr x) →
  inplace f a b h = (Ok tt, <[a := mkT (dtype_of x) z]> h).
Proof.
  intros Ha Hb Hz Hsh. unfold inplace, bindS, liftS.
  rewrite (load_ok h a x Ha), (load_ok h b y Hb), Hz.
  unfold eqb_shape. by rewrite bool_decide_eq_true_2.
Qed.

(** [a op b] changes no array; if it returns, the result is a new one. *)
Lemma binop_inv (f : Q → Q → Q) (a b : loc) (h : heap) :
  (∃ e, binop f a b h = (Raise e, h))
  ∨ (∃ x, binop f a b h = (Ok (length h), h ++ [x])).
Proof.
  unfold binop, bindS, liftS, load, new.
  destruct (h !! a) as [x|]; [|eauto].
  destruct (h !! b) as [y|]; [|eauto].
  destruct (broadcast_op f (arr x) (arr y)) as [z|e]; eauto.
Qed.

(** [a[:] op= b] changes at most the array [a], and neither its shape nor
    its element type. *)
Lemma inplace_inv (f : Q → Q → Q) (a b : loc) (h : heap) :
  (∃ e, inplace f a b h = (Raise e, h))
  ∨ (∃ x z, h !! a = Some x ∧ shape z = shape (arr x)
            ∧ inplace f a b h = (Ok tt, <[a := mkT (dtype_of x) z]> h)).
Proof.
  unfold inplace, bindS, liftS, load, store, raiseS.
  destruct (h !! a) as [x|] eqn:Ha; [|eauto].
  destruct (h !! b) as [y|]; [|eauto].
  destruct (broadcast_op f (arr x) (arr y)) as [z|e]; [|eauto].
  unfold eqb_shape. case_bool_decide; [|eauto].
  right. by exists x, z.
Qed.

Lemma insert_snoc {A} (l : list A) (x y : A) :
  <[length l := y]> (l ++ [x]) = l ++ [y].
Proof. rewrite insert_app_r_alt by lia. by rewrite Nat.sub_diag. Qed.

(** The two steps of [standardize] and of [reverse_standardize] with
    [copy=True]: a new array, then an update of that array. *)
Lemma copy_steps (f g : Q → Q → Q) (l p q : loc) (h : heap) :
  ∃ ext,
    ((doS matrix <- binop f l p; doS _ <- inplace g matrix q; retS matrix)
       h).2 = h ++ ext
    ∧ ∀ l',
        ((doS matrix <- binop f l p; doS _ <- inplace g matrix q; retS matrix)
           h).1 = Ok l' → l' = length h.
Proof.
  unfold bindS at 1 3.
  destruct (binop_inv f l p h) as [[e ->]|[x ->]].
  { exists []. by rewrite app_nil_r. }
  unfold bindS, retS.
  destruct (inplace_inv g (length h) q (h ++ [x])) as [[e ->]|(y & z & _ & _ & ->)].
  - exists [x]. done.
  - rewrite insert_snoc. eexists. split; [done|]. simpl. congruence.
Qed.

(** With [copy=True] neither [transform] nor [reverse_transform] changes
    an array of the store, whatever the instance, the matrix and the
    outcome: the store is extended, and an array that is returned is a new
    one. *)
Theorem standardize_copy_fresh (self : Standardize.t) (l : loc) (h : heap) :
  (∃ ext,
     (Standardize.transform self l true h).2 = h ++ ext
     ∧ ∀ l', (Standardize.transform self l true h).1 = Ok l' →
             l' = length h)
  ∧ (∃ ext,
       (Standardize.reverse_transform self l true h).2 = h ++ ext
       ∧ ∀ l', (Standardize.reverse_transform self l true h).1 = Ok l' →
               l' = length h).
Proof.
  assert (Hnil : ∀ e : exn,
            ∃ ext, (Raise e : result loc, h).2 = h ++ ext
                   ∧ ∀ l', (Raise e : result loc, h).1 = Ok l' →
                           l' = length h).
  { intros e. exists []. by rewrite app_nil_r. }
  split.
  - unfold Standardize.transform.
    do 2 (rewrite bindS_liftS; destruct (assert_ _); [|apply Hnil]).
    unfold standardize. rewrite bindS_load.
    destruct (h !! l) as [m|]; [|apply Hnil]. cbn [negb andb].
    do 3 (rewrite bindS_liftS; destruct (assert_ _); [|apply Hnil]).
    destruct (Standardize.mean_ self) as [lm|]; [|apply Hnil].
    destruct (Standardize.std_ self) as [ls|]; [|apply Hnil].
    apply copy_steps.
  - unfold Standardize.reverse_transform.
    do 2 (rewrite bindS_liftS; destruct (assert_ _); [|apply Hnil]).
    unfold reverse_standardize. rewrite bindS_load.
    destruct (h !! l) as [m|]; [|apply Hnil]. cbn [negb andb].
    do 3 (rewrite bindS_liftS; destruct (assert_ _); [|apply Hnil]).
    destruct (Standardize.mean_ self) as [lm|]; [|apply Hnil].
    rewrite bindS_load. destruct (h !! lm) as [mn|]; [|apply Hnil].
    rewrite bindS_liftS; destruct (assert_ _); [|apply Hnil].
    destruct (Standardize.std_ self) as [ls|]; [|apply Hnil].
    rewrite bindS_load. destruct (h !! ls) as [sd|]; [|apply Hnil].
    rewrite bindS_liftS; destruct (assert_ _); [|apply Hnil].
    apply copy_steps.
Qed.

(** The two steps with [copy=False]: two updates of the array itself. *)
Lemma inplace_steps (f g : Q → Q → Q) (l p q : loc) (h h' : heap)
    (l' : loc) :
  (doS matrix <- (doS _ <- inplace f l p; retS l);
   doS _ <- inplace g matrix q; retS matrix) h = (Ok l', h') →
  l' = l ∧ ∃ m z, h !! l = Some m ∧ shape z = shape (arr m)
                  ∧ h' = <[l := mkT (dtype_of m) z]> h.
Proof.
  unfold bindS, retS.
  destruct (inplace_inv f l p h) as [[e ->]|(x & z & Hx & Hsh & ->)];
    [done|].
  cbv beta iota.
  destruct (inplace_inv g l q (<[l := mkT (dtype_of x) z]> h))
    as [[e ->]|(x2 & z2 & Hx2 & Hsh2 & ->)]; [done|].
  intros [= <- <-]. split; [done|].
  rewrite list_lookup_insert_eq in Hx2 by (by eapply lookup_lt_Some).
  injection Hx2 as <-. simpl in *.
  exists x, z2. rewrite list_insert_insert_eq.
  split; [done|]. split; [congruence|done].
Qed.

(** With [copy=False] a matrix that [transform] or [reverse_transform]
    accepts is of type float64, and what is returned is that very array:
    the store differs from the one before at that location only, where the
    array has kept its shape and its element type. *)
Theorem standardize_inplace_alias (self : Standardize.t) (l l' : loc)
    (h h' : heap) :
  Standardize.transform self l false h = (Ok l', h')
  ∨ Standardize.reverse_transform self l false h = (Ok l', h') →
  l' = l
  ∧ ∃ m x, h !! l = Some m ∧ dtype_of m = Float64
           ∧ h' = <[l := x]> h
           ∧ dtype_of x = Float64 ∧ shape (arr x) = shape (arr m).
Proof.
  assert (Hfin : ∀ (m : tarray) (f g : Q → Q → Q) (p q : loc),
            h !! l = Some m → not_float64 m = false →
            (doS matrix <- (doS _ <- inplace f l p; retS l);
             doS _ <- inplace g matrix q; retS matrix) h = (Ok l', h') →
            l' = l
            ∧ ∃ m x, h !! l = Some m ∧ dtype_of m = Float64
                     ∧ h' = <[l := x]> h
                     ∧ dtype_of x = Float64 ∧ shape (arr x) = shape (arr m)).
  { intros m f g p q Hm Hd Hrun.
    apply inplace_steps in Hrun as (-> & m' & z & Hm' & Hsh & ->).
    split; [done|]. assert (m' = m) as -> by congruence.
    unfold not_float64 in Hd. apply negb_false_iff in Hd.
    apply bool_decide_eq_true_1 in Hd.
    exists m, (mkT (dtype_of m) z). done. }
  intros [Hrun|Hrun].
  - unfold Standardize.transform in Hrun.
    do 2 (rewrite bindS_liftS in Hrun; destruct (assert_ _); [|done]).
    unfold standardize in Hrun. rewrite bindS_load in Hrun.
    destruct (h !! l) as [m|] eqn:Hm; [|done]. cbn [negb andb] in Hrun.
    destruct (not_float64 m) eqn:Hd; [done|].
    do 3 (rewrite bindS_liftS in Hrun; destruct (assert_ _); [|done]).
    destruct (Standardize.mean_ self) as [lm|]; [|done].
    destruct (Standardize.std_ self) as [ls|]; [|done].
    by eapply Hfin.
  - unfold Standardize.reverse_transform in Hrun.
    do 2 (rewrite bindS_liftS in Hrun; destruct (assert_ _); [|done]).
    unfold reverse_standardize in Hrun. rewrite bindS_load in Hrun.
    destruct (h !! l) as [m|] eqn:Hm; [|done]. cbn [negb andb] in Hrun.
    destruct (not_float64 m) eqn:Hd; [done|].
    do 3 (rewrite bindS_liftS in Hrun; destruct (assert_ _); [|done]).
    destruct (Standardize.mean_ self) as [lm|]; [|done].
    rewrite bindS_load in Hrun. destruct (h !! lm) as [mn|]; [|done].
    rewrite bindS_liftS in Hrun; destruct (assert_ _); [|done].
    destruct (Standardize.std_ self) as [ls|]; [|done].
    rewrite bindS_load in Hrun. destruct (h !! ls) as [sd|]; [|done].
    rewrite bindS_liftS in Hrun; destruct (assert_ _); [|done].
    by eapply Hfin.
Qed.

(** In place, anything but float64 is refused, float32 and float16
    included: a fitted instance raises the type error for such a matrix
    before it looks at its shape, and the store is as it was. *)
Theorem standardize_inplace_needs_float64 (self : Standardize.t)
    (l lm ls : loc) (h : heap) (m : tarray) :
  Standardize.mean_ self = Some lm → Standardize.std_ self = Some ls →
  h !! l = Some m → dtype_of m ≠ Float64 →
  Standardize.transform self l false h
  = (Raise (TypeError "Matrix should be of type 'float64'"), h)
  ∧ Standardize.reverse_transform self l false h
    = (Raise (TypeError "Matrix should be of type 'float64'"), h).
Proof.
  intros Hmean Hstd Hm Hd.
  assert (Hnot : not_float64 m = true).
  { unfold not_float64. by rewrite bool_decide_eq_false_2. }
  unfold Standardize.transform, Standardize.reverse_transform.
  rewrite Hmean, Hstd. cbn [Standardize.is_not_None assert_].
  rewrite !bindS_liftS. unfold standardize, reverse_standardize.
  rewrite !bindS_load, Hm, Hnot. done.
Qed.

Lemma standardize_inplace_needs_float64_witness :
  Standardize.transform (Standardize.mk 0 (Some 1%nat) (Some 2%nat)) 0%nat
    false
    [mkT Float32 (Arr1 [1; 3]%Q); mkT Float32 (Arr1 [2%Q]);
     mkT Float32 (Arr1 [1%Q])]
  = (Raise (TypeError "Matrix should be of type 'float64'"),
     [mkT Float32 (Arr1 [1; 3]%Q); mkT Float32 (Arr1 [2%Q]);
      mkT Float32 (Arr1 [1%Q])]).
Proof.
  apply (standardize_inplace_needs_float64
           (Standardize.mk 0 (Some 1%nat) (Some 2%nat)) 0%nat 1%nat 2%nat
           [mkT Float32 (Arr1 [1; 3]%Q); mkT Float32 (Arr1 [2%Q]);
            mkT Float32 (Arr1 [1%Q])]
           (mkT Float32 (Arr1 [1; 3]%Q))).
  - reflexivity.
  - reflexivity.
  - reflexivity.
  - discriminate.
Defined.

Lemma standardize_inplace_alias_witness :
  0%nat = 0%nat
  ∧ ∃ m x,
      [mkT Float64 (Arr1 [1; 3]%Q); mkT Float64 (Arr1 [2%Q]);
       mkT Float64 (Arr1 [1%Q])] !! 0%nat = Some m
      ∧ dtype_of m = Float64
      ∧ [mkT Float64 (Arr1 [-1; 1]%Q); mkT Float64 (Arr1 [2%Q]);
         mkT Float64 (Arr1 [1%Q])]
        = <[0%nat := x]>
            [mkT Float64 (Arr1 [1; 3]%Q); mkT Float64 (Arr1 [2%Q]);
             mkT Float64 (Arr1 [1%Q])]
      ∧ dtype_of x = Float64 ∧ shape (arr x) = shape (arr m).
Proof.
  apply (standardize_inplace_alias
           (Standardize.mk 0 (Some 1%nat) (Some 2%nat)) 0%nat 0%nat
           [mkT Float64 (Arr1 [1; 3]%Q); mkT Float64 (Arr1 [2%Q]);
            mkT Float64 (Arr1 [1%Q])]
           [mkT Float64 (Arr1 [-1; 1]%Q); mkT Float64 (Arr1 [2%Q]);
            mkT Float64 (Arr1 [1%Q])]).
  left. vm_compute. reflexivity.
Defined.

(** ** Standardize: broadcasting against the values of the slices *)

Lemma zip_with_replicate_r_length {A B C} (g : A → B → C) (v : list A)
    (m : B) :
  zip_with g v (replicate (length v) m) = map (λ x, g x m) v.
Proof. induction v as [|x v IH]; simpl; [done|]. by rewrite IH. Qed.

Lemma stretch_same {A} (n : nat) (l : list A) : stretch n n l = l.
Proof. unfold stretch. by rewrite Nat.eqb_refl. Qed.

Lemma stretch_one {A} (m : nat) (x : A) : stretch 1 m [x] = replicate m x.
Proof.
  unfold stretch. destruct (Nat.eqb_spec 1 m) as [<-|]; done.
Qed.

Lemma broadcast_dim_same (n : nat) : broadcast_dim n n = Ok n.
Proof. unfold broadcast_dim. by rewrite Nat.eqb_refl. Qed.

Lemma broadcast_dim_one_r (n : nat) : broadcast_dim n 1 = Ok n.
Proof.
  unfold broadcast_dim. destruct (Nat.eqb_spec n 1) as [->|]; [done|].
  simpl. done.
Qed.

Lemma map_stretch_same {A} (c : nat) (rows : list (list A)) :
  map (stretch c c) rows = rows.
Proof.
  induction rows as [|row rows IH]; simpl; [done|].
  by rewrite stretch_same, IH.
Qed.

Lemma slices_length (a : ndarray Q) (axis : nat) :
  wf a → (axis < ndim a)%nat →
  length (slices a axis)
  = match a, axis with
    | Arr2 r c _, 0%nat => c
    | Arr2 r c _, _ => r
    | _, _ => 1%nat
    end.
Proof.
  destruct a as [x|v|r c rows], axis as [|[|axis]]; simpl; try lia; try done.
  intros [_ Hrows] _. by apply transpose_length.
Qed.

(** An array against one value per slice along [axis], kept with length 1
    along that axis: broadcasting pairs every entry with the value of its
    slice. *)
Lemma broadcast_keepdims (g : Q → Q → Q) (a : ndarray Q) (axis : nat)
    (k : list Q) :
  wf a → (axis < ndim a)%nat → length k = length (slices a axis) →
  broadcast_op g a (keepdims a axis k) = Ok (op_along g a axis k).
Proof.
  intros Hwf Hax Hk. rewrite slices_length in Hk by done.
  destruct a as [x|v|r c rows]; simpl in Hax; [lia| |].
  - destruct axis as [|axis]; [|lia].
    destruct k as [|m [|m' k]]; try done.
    unfold broadcast_op. simpl.
    rewrite broadcast_dim_one_r. simpl.
    rewrite !stretch_same, stretch_one, app_nil_r.
    by rewrite zip_with_replicate_r_length.
  - destruct Hwf as [Hr Hrows].
    destruct axis as [|[|axis]]; [| |lia]; unfold broadcast_op; simpl.
    + rewrite broadcast_dim_one_r, broadcast_dim_same. simpl.
      rewrite !stretch_same, map_stretch_same, stretch_one.
      do 2 f_equal. subst r. clear Hrows Hax.
      induction rows as [|row rows IH]; simpl; [done|]. by rewrite IH.
    + rewrite broadcast_dim_one_r, broadcast_dim_same. simpl.
      rewrite !stretch_same, map_stretch_same.
      do 2 f_equal. subst r. clear Hax. revert k Hk.
      induction Hrows as [|row rows Hrow _ IH]; intros [|m k] Hk;
        simpl in *; try done.
      rewrite stretch_one.
      assert (Hz : zip_with g row (replicate c m) = map (λ x, g x m) row)
        by (rewrite <- Hrow; apply zip_with_replicate_r_length).
      rewrite Hz. f_equal. apply IH. lia.
Qed.








(** ** Standardize: there and back *)






Lemma standardize_guards (l : loc) (lm ls : loc) (axis : Z) (copy : bool)
    (h : heap) (m : tarray) :
  h !! l = Some m → dims_ok (arr m) axis = true →
  (copy = false → dtype_of m = Float64) →
  standardize l (Some lm) (Some ls) axis copy h
  = (doS matrix <- (if copy then binop Qminus l lm
                    else doS _ <- inplace Qminus l lm; retS l);
     doS _ <- inplace Qdiv matrix ls; retS matrix) h.
Proof.
  intros Hl Hok Hd. unfold standardize. rewrite bindS_load, Hl.
  assert (negb copy && not_float64 m = false) as ->.
  { destruct copy; [done|]. unfold not_float64.
    by rewrite bool_decide_eq_true_2 by auto. }
  unfold dims_ok in Hok. rewrite !andb_true_iff in Hok.
  destruct Hok as [[Hn Hs] [Ha0 Ha1]].
  rewrite bindS_liftS, Hn. cbn [assert_].
  rewrite bindS_liftS, Hs. cbn [assert_].
  rewrite bindS_liftS, Ha0, Ha1. done.
Qed.



Section StandardizeRoundTrip.
  Context `{Sqrt} `{Util}.
  Hypothesis NEARZERO_pos : (0 < NEARZERO)%Q.



End StandardizeRoundTrip.


(** ** Standardize: what transform achieves *)







Section StandardizeCentres.
  Context `{Sqrt} `{Util}.
  Hypothesis NEARZERO_pos : (0 < NEARZERO)%Q.


End StandardizeCentres.


(** ** Bin: rows and columns *)

Section BinDuality.
  Context `{Percentile}.
  Variable bin_start : Z.




End BinDuality.


(** ** Shuffler: the other way round *)

Lemma argsort_perm (p : list nat) : argsort p ≡ₚ seq 0 (length p).
Proof.
  unfold argsort.
  assert (Hperm : ∀ l, foldr insert_by_key [] l ≡ₚ l).
  { intros l. induction l as [|x l IH]; simpl; [done|].
    by rewrite insert_by_key_perm, IH. }
  rewrite Hperm. rewrite snd_zip; [done|]. by rewrite length_seq.
Qed.

Lemma argsort_involutive (p : list nat) (n : nat) :
  p ≡ₚ seq 0 n → argsort (argsort p) = p.
Proof.
  intros Hp.
  assert (Hlen : length p = n) by (by rewrite Hp, length_seq).
  assert (Ha : argsort p ≡ₚ seq 0 n) by (rewrite <- Hlen; apply argsort_perm).
  destruct (argsort_inverse p n Hp) as [Hla Hinv].
  destruct (argsort_inverse (argsort p) n Ha) as [Hlb Hinv'].
  apply list_eq. intros k.
  destruct (argsort (argsort p) !! k) as [j|] eqn:Hk.
  - symmetry. apply Hinv. by apply Hinv'.
  - symmetry. apply lookup_ge_None. apply lookup_ge_None in Hk. lia.
Qed.

(** [reverse_transform] is also undone by [transform]: unshuffling a
    matrix with a fitted [Shuffler] and shuffling the result gives the
    matrix back, data and labels. *)
Theorem shuffler_reverse_then_transform `{Random} {A L : Type}
    (shuffle_rows shuffle_columns : bool) (seed : Z) (g0 : rng)
    (copy1 copy2 : bool) (X : Matrix A L) :
  aligned X →
  ∃ self g Y,
    Shuffler.fit
      (Shuffler.init shuffle_rows shuffle_columns None None seed g0).1 X
      (Shuffler.init shuffle_rows shuffle_columns None None seed g0).2
    = Ok (self, g) ∧
    Shuffler.reverse_transform self X copy1 = Ok Y ∧
    Shuffler.transform self Y copy2 = Ok X.
Proof.
  intros Hal. pose proof Hal as [_ Hsh].
  set (r := length (rowlabels X)) in *.
  set (c := length (columnlabels X)) in *.
  cbn [Shuffler.init fst snd].
  destruct (shuffler_fit_drawn shuffle_rows shuffle_columns X
              (np_random_seed seed) r c Hsh) as (q & p & g' & Hfit & Hq & Hp).
  set (q2 := if shuffle_rows then Some (argsort_attr q) else None).
  set (p2 := if shuffle_columns then Some (argsort_attr p) else None).
  destruct (shuffler_round_trip_fitted shuffle_rows shuffle_columns q2 p2 X
              r c copy1 copy2 Hal Hsh) as (Y & Ht & Hr).
  - unfold q2. destruct shuffle_rows; [|done].
    destruct Hq as (q' & -> & ->). eexists. split; [done|]. simpl.
    pose proof (np_random_choice_perm (np_random_seed seed) r) as Hperm.
    rewrite (argsort_perm _). by rewrite Hperm, length_seq.
  - unfold p2. destruct shuffle_columns; [|done].
    destruct Hp as (p' & -> & ->). eexists. split; [done|]. simpl.
    match goal with
    | |- argsort (np_random_choice ?g c).1 ≡ₚ _ =>
        pose proof (np_random_choice_perm g c) as Hperm
    end.
    rewrite (argsort_perm _). by rewrite Hperm, length_seq.
  - exists (Shuffler.mk shuffle_rows shuffle_columns q p true), g', Y.
    split; [exact Hfit|].
    unfold Shuffler.transform, Shuffler.reverse_transform in *.
    cbn [Shuffler.fitted_ Shuffler.shuffle_rows_ Shuffler.shuffle_columns_
         Shuffler.row_indices_ Shuffler.column_indices_ negb] in *.
    unfold q2, p2 in *.
    destruct shuffle_rows, shuffle_columns; cbn [Shuffler.indices_of bind] in *.
    + destruct Hq as (q' & -> & Hq'). destruct Hp as (p' & -> & Hp').
      cbn [argsort_attr] in *. split; [exact Ht|].
      rewrite (argsort_involutive q' r) in Hr
        by (subst q'; apply np_random_choice_perm).
      rewrite (argsort_involutive p' c) in Hr
        by (subst p'; apply np_random_choice_perm).
      exact Hr.
    + destruct Hq as (q' & -> & Hq'). cbn [argsort_attr] in *.
      split; [exact Ht|].
      rewrite (argsort_involutive q' r) in Hr
        by (subst q'; apply np_random_choice_perm).
      exact Hr.
    + destruct Hp as (p' & -> & Hp'). cbn [argsort_attr] in *.
      split; [exact Ht|].
      rewrite (argsort_involutive p' c) in Hr
        by (subst p'; apply np_random_choice_perm).
      exact Hr.
    + split; [exact Ht|exact Hr].
Qed.

Lemma shuffler_reverse_then_transform_witness :
  ∃ self g Y,
    @Shuffler.fit rotation_random Z string
      (@Shuffler.init rotation_random true true None None 1 0%nat).1
      (mkMatrix (Arr2 2 2 [[1; 2]; [3; 4]]) ["r0"; "r1"] ["c0"; "c1"])
      (@Shuffler.init rotation_random true true None None 1 0%nat).2
    = Ok (self, g) ∧
    Shuffler.reverse_transform self
      (mkMatrix (Arr2 2 2 [[1; 2]; [3; 4]]) ["r0"; "r1"] ["c0"; "c1"]) true
    = Ok Y ∧
    Shuffler.transform self Y true
    = Ok (mkMatrix (Arr2 2 2 [[1; 2]; [3; 4]]) ["r0"; "r1"] ["c0"; "c1"]).
Proof.
  apply (@shuffler_reverse_then_transform rotation_random Z string
           true true 1 0%nat true true
           (mkMatrix (Arr2 2 2 [[1; 2]; [3; 4]]) ["r0"; "r1"] ["c0"; "c1"])).
  split; [|reflexivity]. split; [reflexivity|]. repeat constructor.
Defined.


(** ** Standardize: a vector against a matrix *)

Lemma broadcast_row_vector (g : Q → Q → Q) (v k : list Q) (c : nat) :
  length v = c →
  broadcast_op g (Arr1 v) (Arr2 1 c [k]) = Ok (Arr2 1 c [zip_with g v k]).
Proof.
  intros Hv. unfold broadcast_op. simpl. rewrite Hv.
  rewrite broadcast_dim_same. simpl. by rewrite !stretch_same.
Qed.

Section StandardizeVector.
  Context `{Sqrt} `{Util}.

(** An instance fitted per column (axis 0) on a matrix with [c] columns,
    given a float64 vector of length [c]: [transform] with a copy
    broadcasts the vector against the means and returns a matrix of one
    row, of rank 2 where the argument had rank 1; in place the same
    subtraction is refused, its result not having the shape of the
    vector; and [reverse_transform] refuses the vector by its assertion on
    the ranks.  No array of the store is changed. *)
Theorem standardize_vector_rank (self0 self : Standardize.t) (h h1 : heap)
    (l lv : loc) (d : dtype) (r c : nat) (rows : list (list Q))
    (v : list Q) (copy : bool) :
  h !! l = Some (mkT d (Arr2 r c rows)) → wf (Arr2 r c rows) →
  Standardize.axis_ self0 = 0 →
  Standardize.fit self0 l h = (Ok self, h1) →
  h !! lv = Some (mkT Float64 (Arr1 v)) → length v = c →
  (∃ row,
     Standardize.transform self lv true h1
     = (Ok (length h1),
        h1 ++ [mkT (result_type Float64 d) (Arr2 1 c [row])]))
  ∧ Standardize.transform self lv false h1
    = (Raise (ValueError "non-broadcastable output operand"), h1)
  ∧ Standardize.reverse_transform self lv copy h1
    = (Raise AssertionError, h1).
Proof.
  intros Hl Hwf Hax0 Hfit Hlv Hv.
  unfold Standardize.fit, bindS in Hfit. rewrite Hax0 in Hfit.
  destruct (dims_ok (Arr2 r c rows) 0) eqn:Hok.
  2:{ by rewrite (get_mean_and_std_assert h l _ 0 Hl Hok) in Hfit. }
  rewrite (get_mean_and_std_run h l _ 0 Hl Hok) in Hfit.
  cbn [arr dtype_of Z.to_nat keepdims slices] in Hfit.
  pose proof (dims_ok_axis _ _ Hok) as (_ & Hsz & _). simpl in Hsz.
  set (ms := map mean_list (transpose c rows)) in *.
  set (ss := map std_list (transpose c rows)) in *.
  destruct (existsb _ _); [done|]. injection Hfit as <- <-.
  set (h1 := h ++ [mkT d (Arr2 1 c [ms]); mkT d (Arr2 1 c [ss])]).
  pose proof (lookup_lt_Some _ _ _ Hlv) as Hlt.
  assert (Hlv1 : h1 !! lv = Some (mkT Float64 (Arr1 v)))
    by (by apply lookup_app_l_Some).
  assert (Hm1 : h1 !! length h = Some (mkT d (Arr2 1 c [ms])))
    by (by apply list_lookup_middle).
  assert (Hs1 : h1 !! S (length h) = Some (mkT d (Arr2 1 c [ss]))).
  { unfold h1. rewrite (lookup_app_r h) by lia.
    by replace (S (length h) - length h)%nat with 1%nat by lia. }
  assert (Hokv : dims_ok (Arr1 v) 0 = true).
  { unfold dims_ok. simpl. rewrite (proj2 (Nat.ltb_lt 0 (length v))); [done|].
    nia. }
  assert (Hlss : length ss = c).
  { unfold ss. rewrite length_map. apply transpose_length. apply Hwf. }
  unfold Standardize.transform, Standardize.reverse_transform.
  cbn [Standardize.mean_ Standardize.std_ Standardize.axis_
       Standardize.is_not_None assert_].
  rewrite !bindS_liftS.
  rewrite !(standardize_guards lv _ _ 0 _ h1 (mkT Float64 (Arr1 v)))
    by done.
  split; [|split].
  - eexists. unfold bindS.
    rewrite (binop_run Qminus lv (length h) h1 _ _
               (Arr2 1 c [zip_with Qminus v ms]) Hlv1 Hm1)
      by (by apply broadcast_row_vector).
    cbv beta iota.
    rewrite (inplace_run Qdiv (length h1) (S (length h)) _
               (mkT (result_type Float64 d)
                  (Arr2 1 c [zip_with Qminus v ms]))
               (mkT d (Arr2 1 c [ss]))
               (Arr2 1 c [zip_with Qdiv (zip_with Qminus v ms) ss]));
      [|by apply list_lookup_middle|by apply lookup_app_l_Some| |done].
    + rewrite insert_snoc. reflexivity.
    + cbn [arr].
      assert (Hwfz : wf (Arr2 1 c [zip_with Qminus v ms])).
      { split; [done|]. repeat constructor.
        rewrite length_zip_with. unfold ms.
        rewrite length_map, transpose_length by apply Hwf. lia. }
      apply (broadcast_keepdims Qdiv
               (Arr2 1 c [zip_with Qminus v ms]) 0 ss).
      * exact Hwfz.
      * simpl. lia.
      * rewrite slices_length by (done || (simpl; lia)). exact Hlss.
  - assert (Hin : inplace Qminus lv (length h) h1
                  = (Raise (ValueError "non-broadcastable output operand"),
                     h1)).
    { unfold inplace, bindS, liftS.
      rewrite (load_ok _ _ _ Hlv1), (load_ok _ _ _ Hm1). cbn [arr].
      rewrite (broadcast_row_vector Qminus v ms c Hv).
      unfold eqb_shape. rewrite bool_decide_eq_false_2; [done|].
      simpl. congruence. }
    unfold bindS. by rewrite Hin.
  - fold ms ss. fold h1.
    unfold reverse_standardize. rewrite bindS_load, Hlv1.
    cbv beta iota.
    assert (negb copy && not_float64 (mkT Float64 (Arr1 v)) = false) as ->
      by (by destruct copy).
    cbn [arr].
    unfold dims_ok in Hokv. rewrite !andb_true_iff in Hokv.
    destruct Hokv as [[Hn Hs] [Ha0 Ha1]].
    rewrite bindS_liftS, Hn. cbn [assert_].
    rewrite bindS_liftS, Hs. cbn [assert_].
    rewrite bindS_liftS, Ha0, Ha1. cbn [andb assert_].
    rewrite bindS_load, Hm1, bindS_liftS. done.
Qed.

End StandardizeVector.

Lemma standardize_vector_rank_witness :
  ∃ row,
    Standardize.transform (Standardize.mk 0 (Some 2%nat) (Some 3%nat))
      1%nat true
      (@Standardize.fit sqrt_micro nearzero_1e8 (Standardize.mk 0 None None)
         0%nat [x1_std; mkT Float64 (Arr1 [1; 2; 3]%Q)]).2
    = (Ok 4%nat,
       (@Standardize.fit sqrt_micro nearzero_1e8 (Standardize.mk 0 None None)
          0%nat [x1_std; mkT Float64 (Arr1 [1; 2; 3]%Q)]).2
       ++ [mkT Float64 (Arr2 1 3 [row])]).
Proof.
  destruct (@standardize_vector_rank sqrt_micro nearzero_1e8
              (Standardize.mk 0 None None)
              (Standardize.mk 0 (Some 2%nat) (Some 3%nat))
              [x1_std; mkT Float64 (Arr1 [1; 2; 3]%Q)]
              (@Standardize.fit sqrt_micro nearzero_1e8
                 (Standardize.mk 0 None None) 0%nat
                 [x1_std; mkT Float64 (Arr1 [1; 2; 3]%Q)]).2
              0%nat 1%nat Float64 4 3
              [[2; 7; 9]; [6; 9; 2]; [4; 0; 2]; [7; 2; 5]]%Q
              [1; 2; 3]%Q true)
    as [[row Hrow] _].
  - reflexivity.
  - split; [reflexivity|]. repeat constructor.
  - reflexivity.
  - vm_compute. reflexivity.
  - reflexivity.
  - reflexivity.
  - exists row. exact Hrow.
Defined.
